(** * mp3-player-visualizer: the frequency sampling and normalisation utilities

    A shallow embedding of the pure helpers of the audio utilities module
    ([normalizeFrequencyData], [smoothArray], [validateAudioFile],
    [clearAudioCache]) and of the data accessors of the [useAudioVisualizer]
    hook ([getBarData], [getBassLevel], [getTrebleLevel]), followed by the
    properties the specification states about them.  The embedding then
    covers the rest of the utilities ([formatTime], [extractMetadata], the
    storage helpers), the other accessors of the hook, the volume control of
    [useAudioPlayer], the playlist handlers of [Mp3Player] and the validation
    of [FileUpload], with the properties their code shows.

    Modelling conventions.
    - A JavaScript number is a [number]: an exact rational, or one of the three
      non-finite values NaN, +Infinity and -Infinity.  Division by zero
      therefore behaves as in the engine (0/0 is NaN, x/0 is an infinity).
      The rounding of binary64 and the sign of zero are not modelled for
      magnitudes; every sum the code forms is an integer far below 2^53.
    - Index arithmetic that goes through a non-integer constant
      ([Math.floor(length * 0.1)]) is computed on binary64 floats, bit for
      bit, because the rounding decides which bins are read.
    - A [Uint8Array] is a list of integers; [wf_Uint8Array] says each is a
      byte.  A parameter that may be [null] or [undefined] is an [option].
    - Loops are structural recursions on the number of iterations left. *)

From Stdlib Require Import ZArith QArith Qcanon Lia Ascii String.
From Stdlib Require Import Floats.PrimFloat Floats.SpecFloat Floats.FloatOps.
From Stdlib Require Import Numbers.Cyclic.Int63.Uint63.
From stdpp Require Import gmap strings list numbers pretty.

(* 0.1 and 0.7 are read as the nearest binary64 values, as the engine reads them. *)
Set Warnings "-inexact-float".

(* ===================================================================== *)
(** ** JavaScript values used by the code                                 *)
(* ===================================================================== *)

Module JS.

(** A JavaScript number. *)
Inductive number : Type :=
  | Fin (q : Qc)
  | NaN
  | PosInf
  | NegInf.

#[global] Instance number_eq_dec : EqDecision number.
Proof. solve_decision. Defined.

Definition of_Z (z : Z) : number := Fin (Qc_of_Z z).
Definition of_nat (n : nat) : number := of_Z (Z.of_nat n).
Definition zero : number := of_Z 0.
Definition one : number := of_Z 1.

Definition is_finite (x : number) : Prop :=
  match x with Fin _ => True | _ => False end.

Definition neg (x : number) : number :=
  match x with
  | Fin q => Fin (- q)%Qc
  | NaN => NaN
  | PosInf => NegInf
  | NegInf => PosInf
  end.

(** [inf * q] and [inf / q] for a finite [q]: the sign of [q] picks the
    infinity, and a zero factor gives [at_zero]. *)
Definition scale_inf (inf : number) (q : Qc) (at_zero : number) : number :=
  match (q ?= 0)%Qc with
  | Eq => at_zero
  | Gt => inf
  | Lt => neg inf
  end.

(** [x + y] *)
Definition add (x y : number) : number :=
  match x, y with
  | NaN, _ | _, NaN => NaN
  | Fin a, Fin b => Fin (a + b)%Qc
  | PosInf, NegInf | NegInf, PosInf => NaN
  | PosInf, _ | _, PosInf => PosInf
  | NegInf, _ | _, NegInf => NegInf
  end.

(** [x - y] *)
Definition sub (x y : number) : number := add x (neg y).

(** [x * y] *)
Definition mul (x y : number) : number :=
  match x, y with
  | NaN, _ | _, NaN => NaN
  | Fin a, Fin b => Fin (a * b)%Qc
  | Fin a, inf | inf, Fin a => scale_inf inf a NaN
  | PosInf, PosInf | NegInf, NegInf => PosInf
  | PosInf, NegInf | NegInf, PosInf => NegInf
  end.

(** [x / y]: a zero divisor gives NaN for [0 / 0] and an infinity
    otherwise; no exception is raised. *)
Definition div (x y : number) : number :=
  match x, y with
  | NaN, _ | _, NaN => NaN
  | Fin a, Fin b =>
      if decide (b = 0%Qc) then scale_inf PosInf a NaN else Fin (a / b)%Qc
  | Fin _, _ => zero
  | inf, Fin b => scale_inf inf b inf
  | _, _ => NaN
  end.

(** [x <= y] on numbers; every comparison with NaN is false. *)
Definition le (x y : number) : Prop :=
  match x, y with
  | NaN, _ | _, NaN => False
  | Fin a, Fin b => (a <= b)%Qc
  | NegInf, _ | _, PosInf => True
  | _, _ => False
  end.

(** A typed array of unsigned bytes, as [getByteFrequencyData] fills it. *)
Abbreviation Uint8Array := (list Z).

Definition wf_Uint8Array (a : Uint8Array) : Prop :=
  Forall (fun v => (0 <= v <= 255)%Z) a.

(** [a[j]] read as a number: an index out of range reads [undefined], which
    arithmetic turns into NaN. *)
Definition get (a : Uint8Array) (j : nat) : number :=
  match a !! j with
  | Some v => of_Z v
  | None => NaN
  end.

(** [new Array(n).fill(v)] *)
Definition Array_fill {A} (n : nat) (v : A) : list A := replicate n v.

(** [for (let i = lo; i < lo + n; i++) s = body i s] *)
Fixpoint for_loop {S : Type} (n i : nat) (body : nat -> S -> S) (s : S) : S :=
  match n with
  | O => s
  | Datatypes.S n' => for_loop n' (Datatypes.S i) body (body i s)
  end.

(** [for (let j = start; j < end && j < a.length; j++) sum += a[j]], with
    [n = end - j] the distance to [end]: the loop stops when [n] reaches 0
    ([j < end] fails) or when [j] reaches the length of the array. *)
Fixpoint sum_while (a : Uint8Array) (n j : nat) (sum : number) : number :=
  match n with
  | O => sum
  | Datatypes.S n' =>
      if j <? length a then sum_while a n' (Datatypes.S j) (add sum (get a j))
      else sum
  end.

(** [Math.floor(x)] of a binary64 float as an integer (0 for the values
    that have no integer part to speak of: NaN and the infinities). *)
Definition Math_floor (x : float) : Z :=
  match Prim2SF x with
  | S754_finite s m e =>
      let v := if s then Z.neg m else Z.pos m in
      if (0 <=? e)%Z then (v * 2 ^ e)%Z else (v / 2 ^ (- e))%Z
  | _ => 0%Z
  end.

(** An array length as a binary64 float (exact below 2^53). *)
Definition float_of_length (n : nat) : float :=
  PrimFloat.of_uint63 (Uint63.of_Z (Z.of_nat n)).

#[global] Instance le_dec (x y : number) : Decision (le x y).
Proof. destruct x, y; simpl; apply _. Defined.

(** [Math.min(x, y)]: NaN as soon as an argument is NaN. *)
Definition Math_min (x y : number) : number :=
  match x, y with
  | NaN, _ | _, NaN => NaN
  | _, _ => if decide (le x y) then x else y
  end.

(** [Math.max(x, y)]: NaN as soon as an argument is NaN. *)
Definition Math_max (x y : number) : number :=
  match x, y with
  | NaN, _ | _, NaN => NaN
  | _, _ => if decide (le x y) then y else x
  end.

(** [n.toString()] for an integer [n] below 10^21 in size: its decimal
    digits, after a minus sign when it is negative. *)
Definition Number_toString (n : Z) : string := pretty n.

(** [s.padStart(targetLength, c)] for a one-character filler [c]. *)
Definition padStart (s : string) (targetLength : nat) (c : Ascii.ascii) : string :=
  String.append
    (String.string_of_list_ascii (replicate (targetLength - String.length s) c)) s.

End JS.

Import JS.

(* ===================================================================== *)
(** ** The audio utilities module                                         *)
(* ===================================================================== *)

Module audioUtils.

(** [normalizeFrequencyData(dataArray, barCount)].  The caller's default
    for [barCount] is 64; here the argument is always given.
    [Math.floor(dataArray.length / barCount)] is the integer quotient. *)
Definition normalizeFrequencyData (dataArray : option Uint8Array) (barCount : nat)
  : list number :=
  match dataArray with
  | None => Array_fill barCount zero
  | Some dataArray =>
      if length dataArray =? 0 then Array_fill barCount zero
      else
        let chunkSize := length dataArray / barCount in
        for_loop barCount 0
          (fun i normalized =>
             let start := i * chunkSize in
             let end_ := start + chunkSize in
             let sum := sum_while dataArray (end_ - start) start zero in
             let average := div sum (of_nat chunkSize) in
             normalized ++ [div average (of_nat 255)])
          []
  end.

(** The file descriptor handed to [validateAudioFile]: the fields of a
    [File] that the function reads. *)
Record File : Type := mkFile {
  name : string;
  type : string;
  size : Z
}.

(** The object [validateAudioFile] returns: [{ valid, error }], the second
    field absent on success. *)
Record Validation : Type := mkValidation {
  valid : bool;
  error : option string
}.

Definition validTypes : list string :=
  ["audio/mpeg"; "audio/mp3"; "audio/wav"; "audio/ogg"; "audio/aac"; "audio/flac"].

(** [100 * 1024 * 1024], 100MB *)
Definition maxSize : Z := 100 * 1024 * 1024.

(** [validTypes.includes(t)] *)
Definition includes (l : list string) (t : string) : bool :=
  existsb (String.eqb t) l.

(** [validateAudioFile(file)]; [None] is a missing file. *)
Definition validateAudioFile (file : option File) : Validation :=
  match file with
  | None => mkValidation false (Some "No file selected")
  | Some file =>
      if negb (includes validTypes (type file)) then
        mkValidation false (Some "Invalid file type. Please select an audio file.")
      else if (size file >? maxSize)%Z then
        mkValidation false (Some "File too large. Maximum size is 100MB.")
      else mkValidation true None
  end.

(** The browser's [localStorage]: string keys, string values. *)
Abbreviation Storage := (gmap string string).

(** [Object.keys(localStorage)] *)
Definition Object_keys (localStorage : Storage) : list string :=
  (map_to_list localStorage).*1.

(** [key.startsWith(p)] *)
Definition startsWith (key p : string) : bool := String.prefix p key.

(** [clearAudioCache()], as a transition of the store paired with the
    value returned.  [removeItem] does not throw, so the [catch] branch is
    never entered. *)
Definition clearAudioCache (localStorage : Storage) : Storage * bool :=
  let keys := Object_keys localStorage in
  let localStorage' :=
    foldl (fun st key =>
             if startsWith key "audio_" || startsWith key "player_"
             then delete key st
             else st)
          localStorage keys in
  (localStorage', true).

(** [smoothed[i] = v] on a JavaScript array: inside the array it replaces
    the element, at the end it appends, beyond the end it extends the array
    (the holes read [undefined], NaN in arithmetic). *)
Definition Array_set (l : list number) (i : nat) (v : number) : list number :=
  if i <? length l then <[i := v]> l
  else l ++ replicate (i - length l) NaN ++ [v].

(** [array[i]] on an array of numbers. *)
Definition Array_get (l : list number) (i : nat) : number :=
  match l !! i with
  | Some v => v
  | None => NaN
  end.

(** [smoothArray(array, smoothingFactor)].  The caller's default for
    [smoothingFactor] is 0.3; here the argument is always given.  A missing
    or empty array is returned as it is. *)
Definition smoothArray (array : option (list number)) (smoothingFactor : number)
  : option (list number) :=
  match array with
  | None => None
  | Some array =>
      if length array =? 0 then Some array
      else
        let smoothed := [Array_get array 0] in
        Some (for_loop (length array - 1) 1
                (fun i smoothed =>
                   Array_set smoothed i
                     (add (mul (Array_get smoothed (i - 1)) smoothingFactor)
                          (mul (Array_get array i) (sub one smoothingFactor))))
                smoothed)
  end.

(** [formatTime(seconds)] for a whole number of seconds ([None]: a missing
    argument or NaN, both answered by the guard).  For a whole number below
    2^53 the quotient [seconds / 60] is floored to the integer quotient and
    [seconds % 60] is the remainder with the sign of [seconds]. *)
Definition formatTime (seconds : option Z) : string :=
  match seconds with
  | None => "0:00"
  | Some seconds =>
      if (seconds =? 0)%Z then "0:00"
      else
        let mins := (seconds `div` 60)%Z in
        let secs := (seconds `rem` 60)%Z in
        String.append (Number_toString mins)
          (String.append ":" (padStart (Number_toString secs) 2 "0"%char))
  end.

(** The characters of the class [[^/.]]. *)
Definition extension_char (c : Ascii.ascii) : bool :=
  negb (Ascii.eqb c "/"%char || Ascii.eqb c "."%char).

(** Does [/\.[^/.]+$/] match at the start of [s]: a dot, then one or more
    characters of the class, up to the end of the string. *)
Definition extension_here (s : string) : bool :=
  match s with
  | String c rest =>
      Ascii.eqb c "."%char && negb (String.eqb rest "")
      && forallb extension_char (String.list_ascii_of_string rest)
  | EmptyString => false
  end.

(** [name.replace(/\.[^/.]+$/, '')]: the leftmost position where the
    pattern matches is found and the match, which runs to the end of the
    string, is removed; without a match the string is returned as it is. *)
Fixpoint remove_extension (s : string) : string :=
  if extension_here s then EmptyString
  else
    match s with
    | EmptyString => EmptyString
    | String c rest => String c (remove_extension rest)
    end.

(** What the [Audio] element reports for the object URL. *)
Inductive AudioEvent : Type :=
  | loadedmetadata (duration : number)
  | error_event.

Record Metadata : Type := mkMetadata {
  md_duration : number;
  md_title : string;
  md_filename : string;
  md_size : Z;
  md_type : string;
  md_url : string
}.

(** [extractMetadata(file)]: the value the promise resolves with, given the
    object URL the browser made for the file and the event the element
    fired. *)
Definition extractMetadata (file : File) (url : string) (ev : AudioEvent)
  : Metadata :=
  match ev with
  | loadedmetadata duration =>
      {| md_duration := duration;
         md_title := remove_extension (name file);
         md_filename := name file;
         md_size := size file;
         md_type := type file;
         md_url := url |}
  | error_event =>
      {| md_title := remove_extension (name file);
         md_filename := name file;
         md_size := size file;
         md_type := type file;
         md_duration := zero;
         md_url := url |}
  end.

(** The host operations the storage helpers go through, for values of a
    type [Data]: [JSON.stringify] and [JSON.parse] ([None] when they
    throw), and whether [localStorage.setItem] accepts a value or throws
    for lack of room. *)
Record Host (Data : Type) : Type := mkHost {
  JSON_stringify : Data → option string;
  JSON_parse : string → option Data;
  setItem_accepts : Storage → string → string → bool
}.
Arguments JSON_stringify {Data}.
Arguments JSON_parse {Data}.
Arguments setItem_accepts {Data}.

(** [saveToLocalStorage(key, data)]: the store afterwards and the value
    returned. *)
Definition saveToLocalStorage {Data} (host : Host Data)
    (key : string) (data : Data) (localStorage : Storage) : Storage * bool :=
  match JSON_stringify host data with
  | Some text =>
      if setItem_accepts host localStorage key text
      then (<[key := text]> localStorage, true)
      else (localStorage, false)
  | None => (localStorage, false)
  end.

(** [loadFromLocalStorage(key, defaultValue)]; an empty stored string is
    falsy and gives the default. *)
Definition loadFromLocalStorage {Data} (host : Host Data)
    (key : string) (defaultValue : Data) (localStorage : Storage) : Data :=
  match localStorage !! key with
  | Some stored =>
      if String.eqb stored "" then defaultValue
      else
        match JSON_parse host stored with
        | Some data => data
        | None => defaultValue
        end
  | None => defaultValue
  end.

End audioUtils.

(* ===================================================================== *)
(** ** The data accessors of the [useAudioVisualizer] hook                *)
(* ===================================================================== *)

Module useAudioVisualizer.

(** The accessors close over the hook's [frequencyData] state, a
    [Uint8Array] that is never null; it is their first argument here. *)

(** [getBarData(barCount)]; the caller's default for [barCount] is 32. *)
Definition getBarData (frequencyData : Uint8Array) (barCount : nat) : list number :=
  if length frequencyData =? 0 then Array_fill barCount zero
  else
    let dataPoints := length frequencyData / barCount in
    for_loop barCount 0
      (fun i bars =>
         let start := i * dataPoints in
         let end_ := start + dataPoints in
         let sum := sum_while frequencyData (end_ - start) start zero in
         bars ++ [div sum (of_nat dataPoints)])
      [].

(** [Math.floor(frequencyData.length * c)] for a float constant [c]. *)
Definition floor_scaled (len : nat) (c : float) : nat :=
  Z.to_nat (Math_floor (float_of_length len * c)%float).

(** [getBassLevel()] *)
Definition getBassLevel (frequencyData : Uint8Array) : number :=
  if length frequencyData =? 0 then zero
  else
    let bassRange := floor_scaled (length frequencyData) 0.1 in
    let sum :=
      for_loop bassRange 0 (fun i sum => add sum (get frequencyData i)) zero in
    div sum (of_nat bassRange).

(** [getTrebleLevel()] *)
Definition getTrebleLevel (frequencyData : Uint8Array) : number :=
  if length frequencyData =? 0 then zero
  else
    let trebleStart := floor_scaled (length frequencyData) 0.7 in
    let '(sum, count) :=
      for_loop (length frequencyData - trebleStart) trebleStart
        (fun i '(sum, count) => (add sum (get frequencyData i), Datatypes.S count))
        (zero, 0) in
    if 0 <? count then div sum (of_nat count) else zero.

(** The host's trigonometry. *)
Record Trig : Type := mkTrig {
  Math_cos : number → number;
  Math_sin : number → number;
  Math_PI : number
}.

(** An element of the array [getCircularData] returns: a bare number in
    the array filled for an empty snapshot, a point otherwise. *)
Record CircularPoint : Type := mkCircularPoint {
  cp_x : number;
  cp_y : number;
  cp_amplitude : number;
  cp_angle : number
}.

Inductive CircularEntry : Type :=
  | Flat (v : number)
  | Point (p : CircularPoint).

(** [getCircularData(points)]; the caller's default for [points] is 64. *)
Definition getCircularData (trig : Trig) (frequencyData : Uint8Array)
    (points : nat) : list CircularEntry :=
  if length frequencyData =? 0 then Array_fill points (Flat zero)
  else
    let dataPoints := length frequencyData / points in
    for_loop points 0
      (fun i circular =>
         let start := i * dataPoints in
         let end_ := start + dataPoints in
         let sum := sum_while frequencyData (end_ - start) start zero in
         let amplitude := div sum (of_nat dataPoints) in
         let angle :=
           mul (mul (div (of_nat i) (of_nat points)) (Math_PI trig)) (of_Z 2) in
         circular ++
           [Point {| cp_x := mul (Math_cos trig angle) amplitude;
                     cp_y := mul (Math_sin trig angle) amplitude;
                     cp_amplitude := amplitude;
                     cp_angle := angle |}])
      [].

(** [a[index] || d] on a typed array: the default stands in for a missing
    element and for the sample 0. *)
Definition get_or (a : Uint8Array) (index : nat) (d : Z) : number :=
  match a !! index with
  | Some v => if (v =? 0)%Z then of_Z d else of_Z v
  | None => of_Z d
  end.

(** [getWaveformPoints(points)] over the hook's [waveformData] state; the
    caller's default for [points] is 128. *)
Definition getWaveformPoints (waveformData : Uint8Array) (points : nat)
  : list number :=
  if length waveformData =? 0 then Array_fill points (of_Z 128)
  else
    let step := length waveformData / points in
    for_loop points 0
      (fun i wavePoints =>
         let index := i * step in
         wavePoints ++ [get_or waveformData index 128])
      [].

(** [getAverageFrequency()] *)
Definition getAverageFrequency (frequencyData : Uint8Array) : number :=
  if length frequencyData =? 0 then zero
  else
    let sum := foldl (fun acc val => add acc (of_Z val)) zero frequencyData in
    div sum (of_nat (length frequencyData)).

End useAudioVisualizer.

(* ===================================================================== *)
(** ** The [useAudioPlayer] hook                                          *)
(* ===================================================================== *)

Module useAudioPlayer.

(** The part of the hook's state [changeVolume] writes: the [volume]
    state and the volume of the audio element, when there is one. *)
Record VolumeState : Type := mkVolumeState {
  volume : number;
  element_volume : option number
}.

(** [changeVolume(newVolume)]: the state afterwards, and whether the call
    returned; the [volume] setter of an audio element throws on NaN and
    leaves the element as it was. *)
Definition changeVolume (newVolume : number) (st : VolumeState)
  : VolumeState * bool :=
  let clampedVolume := Math_max zero (Math_min one newVolume) in
  match element_volume st with
  | Some old =>
      if decide (clampedVolume = NaN)
      then ({| volume := clampedVolume; element_volume := Some old |}, false)
      else ({| volume := clampedVolume; element_volume := Some clampedVolume |}, true)
  | None => ({| volume := clampedVolume; element_volume := None |}, true)
  end.

End useAudioPlayer.

(* ===================================================================== *)
(** ** The playlist of the [Mp3Player] component                          *)
(* ===================================================================== *)

Module Mp3Player.

Record Track : Type := mkTrack {
  track_id : Z;
  track_name : string;
  track_url : string;
  track_file : audioUtils.File
}.

(** The state the two navigation handlers read and write. *)
Record PlayerState : Type := mkPlayerState {
  playlist : list Track;
  currentTrackIndex : nat;
  currentTrack : option Track;
  isPlaying : bool
}.

(** [playNext()] *)
Definition playNext (st : PlayerState) : PlayerState :=
  if length (playlist st) =? 0 then st
  else
    let nextIndex := (currentTrackIndex st + 1) mod length (playlist st) in
    {| playlist := playlist st;
       currentTrackIndex := nextIndex;
       currentTrack := playlist st !! nextIndex;
       isPlaying := false |}.

(** [playPrevious()] *)
Definition playPrevious (st : PlayerState) : PlayerState :=
  if length (playlist st) =? 0 then st
  else
    let prevIndex :=
      if currentTrackIndex st =? 0 then length (playlist st) - 1
      else currentTrackIndex st - 1 in
    {| playlist := playlist st;
       currentTrackIndex := prevIndex;
       currentTrack := playlist st !! prevIndex;
       isPlaying := false |}.

(** [handleFileUpload(event)] for the files of the event, given what the
    host supplies for the [i]-th audio file: the reading of the clock
    [Date.now()] and the object URL. *)
Definition handleFileUpload (now : nat → Z) (createObjectURL : nat → string)
    (files : list audioUtils.File) (st : PlayerState) : PlayerState :=
  let audioFiles :=
    filter (fun file => audioUtils.startsWith (audioUtils.type file) "audio/" = true)
           files in
  if 0 <? length audioFiles then
    let newTracks :=
      imap (fun index file =>
              {| track_id := now index + Z.of_nat index;
                 track_name := audioUtils.remove_extension (audioUtils.name file);
                 track_url := createObjectURL index;
                 track_file := file |})
           audioFiles in
    if negb (bool_decide (is_Some (currentTrack st))) && (0 <? length newTracks)
    then
      {| playlist := playlist st ++ newTracks;
         currentTrack := newTracks !! 0;
         currentTrackIndex := length (playlist st);
         isPlaying := isPlaying st |}
    else
      {| playlist := playlist st ++ newTracks;
         currentTrack := currentTrack st;
         currentTrackIndex := currentTrackIndex st;
         isPlaying := isPlaying st |}
  else st.

(** What a handler asks of the audio element, whose source is the URL of
    the current track. *)
Inductive ElementCall : Type :=
  | call_play (t : Track)
  | call_pause.

(** What the host decides for [togglePlayPause]: whether the audio element
    is mounted, whether a suspended audio context resumes, and whether the
    promise of [play()] resolves. *)
Record Element : Type := mkElement {
  element_mounted : bool;
  context_resumes : bool;
  play_resolves : bool
}.

(** [togglePlayPause()]: the state afterwards and the call made on the
    audio element, if any.  A rejected promise is caught and leaves the
    state as it was. *)
Definition togglePlayPause (el : Element) (st : PlayerState)
  : PlayerState * option ElementCall :=
  match currentTrack st with
  | None => (st, None)
  | Some t =>
      if negb (element_mounted el) then (st, None)
      else if negb (context_resumes el) then (st, None)
      else if isPlaying st then
        ({| playlist := playlist st;
            currentTrackIndex := currentTrackIndex st;
            currentTrack := currentTrack st;
            isPlaying := negb (isPlaying st) |}, Some call_pause)
      else if play_resolves el then
        ({| playlist := playlist st;
            currentTrackIndex := currentTrackIndex st;
            currentTrack := currentTrack st;
            isPlaying := negb (isPlaying st) |}, Some (call_play t))
      else (st, Some (call_play t))
  end.

End Mp3Player.

(* ===================================================================== *)
(** ** The validation of the [FileUpload] component                       *)
(* ===================================================================== *)

Module FileUpload.

Definition allowedTypes : list string :=
  ["audio/mpeg"; "audio/wav"; "audio/mp3"; "audio/x-m4a"; "audio/mp4"].

(** A letter in lower case; every other character as it is. *)
Definition lower (c : ascii) : ascii :=
  let n := nat_of_ascii c in
  if (65 <=? n) && (n <=? 90) then ascii_of_nat (n + 32) else c.

Fixpoint lower_string (s : string) : string :=
  match s with
  | EmptyString => EmptyString
  | String c s => String (lower c) (lower_string s)
  end.

(** [s] ends with [suffix], letters compared without regard to case. *)
Definition ends_with_ignoring_case (s suffix : string) : bool :=
  let n := String.length s in
  let m := String.length suffix in
  (m <=? n) &&
  String.eqb (lower_string (String.substring (n - m) m s)) (lower_string suffix).

(** [name.match(/\.(mp3|wav|m4a)$/i)] finds a match. *)
Definition matches_audio_extension (name : string) : bool :=
  ends_with_ignoring_case name ".mp3"
  || ends_with_ignoring_case name ".wav"
  || ends_with_ignoring_case name ".m4a".

(** [Math.round(x / (1024 * 1024))] for a whole number [x]. *)
Definition round_megabytes (x : Z) : Z := (x + 512 * 1024) `div` (1024 * 1024).

(** [validateFile(file)] under the component's [maxFileSize]: the message
    returned, [None] for [null]. *)
Definition validateFile (maxFileSize : Z) (file : audioUtils.File)
  : option string :=
  if negb (audioUtils.includes allowedTypes (audioUtils.type file))
     && negb (matches_audio_extension (audioUtils.name file))
  then Some "Please select a valid audio file (MP3, WAV, M4A)"
  else if (audioUtils.size file >? maxFileSize)%Z
  then Some (String.append "File size must be less than "
               (String.append (Number_toString (round_megabytes maxFileSize))
                  "MB"))
  else None.

(** The component's default for [maxFileSize]: [50 * 1024 * 1024]. *)
Definition default_maxFileSize : Z := 50 * 1024 * 1024.

End FileUpload.


Import audioUtils useAudioVisualizer.

(* ===================================================================== *)
(** ** Vocabulary of the specification                                    *)
(* ===================================================================== *)

(** The sum of a sequence of samples. *)
Definition sumZ (l : list Z) : Z := foldr Z.add 0%Z l.

(** The samples [s[lo..hi)]. *)
Definition slice (s : list Z) (lo hi : nat) : list Z := take (hi - lo) (drop lo s).

(** The mean of a sequence of samples: its sum over its length. *)
Definition mean (l : list Z) : number := div (of_Z (sumZ l)) (of_nat (length l)).

(** A number in the closed interval [[lo, hi]]. *)
Definition between (lo hi x : number) : Prop := le lo x ∧ le x hi.

(** The value pushed for bar [i] by [normalizeFrequencyData]. *)
Definition normalized_bar (s : Uint8Array) (chunkSize i : nat) : number :=
  div (div (sum_while s chunkSize (i * chunkSize) zero) (of_nat chunkSize))
      (of_nat 255).

(** The value pushed for bar [i] by [getBarData]. *)
Definition raw_bar (f : Uint8Array) (dataPoints i : nat) : number :=
  div (sum_while f dataPoints (i * dataPoints) zero) (of_nat dataPoints).

(** The snapshot of the specification's scenario. *)
Definition scenario_snapshot : Uint8Array :=
  [0; 64; 128; 192; 255; 255; 192; 128]%Z.

(** The files the specification says are turned away: a missing file, a
    declared type outside the six accepted ones, a size over 100MB. *)
Definition rejected (f : option File) : Prop :=
  match f with
  | None => True
  | Some f =>
      type f ∉ ["audio/mpeg"; "audio/mp3"; "audio/wav"; "audio/ogg";
                "audio/aac"; "audio/flac"]
      ∨ (size f > 100 * 1024 * 1024)%Z
  end.

(** [key] starts with [p]: it is [p] followed by something. *)
Definition starts_with (p key : string) : Prop := ∃ rest, key = String.append p rest.

(** The keys of the audio cache. *)
Definition cache_key (key : string) : Prop :=
  starts_with "audio_" key ∨ starts_with "player_" key.

(** The smoothed values that follow a value [prev]. *)
Fixpoint smooth_from (prev k : number) (rest : list number) : list number :=
  match rest with
  | [] => []
  | x :: rest =>
      let y := add (mul prev k) (mul x (sub one k)) in
      y :: smooth_from y k rest
  end.

(** The amplitude an element of [getCircularData]'s result carries. *)
Definition entry_amplitude (e : CircularEntry) : number :=
  match e with
  | Flat v => v
  | Point p => cp_amplitude p
  end.

(** A decimal digit. *)
Definition is_digit (c : ascii) : Prop :=
  (48 ≤ nat_of_ascii c ≤ 57)%nat.

(** The number a decimal digit stands for. *)
Definition digit_value (c : ascii) : Z := Z.of_nat (nat_of_ascii c) - 48.

(** [n] applications of a handler. *)
Fixpoint iterate {A} (n : nat) (f : A → A) (x : A) : A :=
  match n with
  | O => x
  | S n => iterate n f (f x)
  end.

(** The state of the playlist is consistent: the index points into the
    playlist and the current track is the one it points to. *)
Definition playlist_consistent (st : Mp3Player.PlayerState) : Prop :=
  (Mp3Player.currentTrackIndex st < length (Mp3Player.playlist st))%nat ∧
  Mp3Player.currentTrack st
  = Mp3Player.playlist st !! Mp3Player.currentTrackIndex st.

(** The JSON text of a boolean, with a store that always has room. *)
Definition bool_host : Host bool :=
  mkHost bool
    (fun b : bool => Some (if b then "true" else "false"))
    (fun s : string =>
       if String.eqb s "true" then Some true
       else if String.eqb s "false" then Some false
       else None)
    (fun (_ : gmap string string) (_ _ : string) => true).

(** The two decimal digits of a number below 100. *)
Definition two_digits (r : Z) : string :=
  String (ascii_of_nat (48 + Z.to_nat (r `div` 10)))
    (String (ascii_of_nat (48 + Z.to_nat (r `mod` 10))) EmptyString).

(** A file extension: one or more characters, none of them a dot or a
    slash. *)
Definition plain_extension (ext : string) : Prop :=
  ext ≠ EmptyString ∧
  ∀ c, c ∈ String.list_ascii_of_string ext → c ≠ "."%char ∧ c ≠ "/"%char.

(** What holds of every state the player reaches: either nothing has
    been loaded yet, or the state is consistent. *)
Definition player_invariant (st : Mp3Player.PlayerState) : Prop :=
  (Mp3Player.playlist st = [] ∧ Mp3Player.currentTrack st = None) ∨
  playlist_consistent st.

(** A file [validateAudioFile] turns away twice over: 200MB, and a type
    that is not one of its six. *)
Definition oversized_m4a : File :=
  mkFile "big.m4a" "audio/x-m4a" (200 * 1024 * 1024).

(** The player before anything is loaded. *)
Definition initial_player : Mp3Player.PlayerState :=
  Mp3Player.mkPlayerState [] 0 None false.

(** An audio element that is mounted and plays. *)
Definition working_element : Mp3Player.Element :=
  Mp3Player.mkElement true true true.

(* ===================================================================== *)
(** ** Arithmetic of numbers                                              *)
(* ===================================================================== *)

Section number_facts.

Local Open Scope Qc_scope.

Lemma add_of_Z (a b : Z) : add (of_Z a) (of_Z b) = of_Z (a + b).
Proof. unfold of_Z; simpl. by rewrite Z2Qc_inj_add. Qed.

Lemma Qc_of_Z_pos_ne0 (c : Z) : (0 < c)%Z → Qc_of_Z c ≠ 0.
Proof.
  intros Hc Heq. rewrite <- Z2Qc_inj_0 in Heq. apply Z2Qc_inj in Heq. lia.
Qed.

Lemma Qc_of_Z_pos (c : Z) : (0 < c)%Z → 0 < Qc_of_Z c.
Proof. intros Hc. by rewrite <- Z2Qc_inj_0, <- Z2Qc_inj_lt. Qed.

Lemma Qc_of_Z_nonneg (c : Z) : (0 ≤ c)%Z → 0 ≤ Qc_of_Z c.
Proof. intros Hc. by rewrite <- Z2Qc_inj_0, <- Z2Qc_inj_le. Qed.

(** Dividing by a positive integer stays finite. *)
Lemma div_Fin_pos (q : Qc) (c : Z) :
  (0 < c)%Z → div (Fin q) (of_Z c) = Fin (q / Qc_of_Z c).
Proof.
  intros Hc. unfold of_Z; simpl.
  destruct (decide (Qc_of_Z c = 0)) as [H0|_]; [|done].
  by apply Qc_of_Z_pos_ne0 in H0.
Qed.

(** [0 / 0] is NaN, [1 / 0] is Infinity, [Infinity * 0] is NaN and
    [1 / Infinity] is 0. *)
Lemma div_zero_zero : div zero (of_nat 0) = NaN.
Proof. by vm_compute. Qed.

Lemma non_finite_arithmetic :
  div one zero = PosInf ∧ mul PosInf zero = NaN ∧ div one PosInf = zero ∧
  sub PosInf PosInf = NaN ∧ add NaN one = NaN.
Proof. by vm_compute. Qed.

Lemma zero_div_pos (c d : Z) :
  (0 < c)%Z → (0 < d)%Z → div (div zero (of_Z c)) (of_Z d) = zero.
Proof.
  intros Hc Hd. unfold zero at 1. unfold of_Z at 1.
  rewrite !div_Fin_pos by done. unfold zero, of_Z. f_equal.
  rewrite Z2Qc_inj_0. unfold Qcdiv. by rewrite !Qcmult_0_l.
Qed.

Lemma div_le_iff (x y z : Qc) : 0 < y → x / y ≤ z ↔ x ≤ z * y.
Proof.
  intros Hy. rewrite (Qcmult_le_mono_pos_r (x / y) z y Hy).
  unfold Qcdiv. rewrite <- Qcmult_assoc, Qcmult_inv_l, Qcmult_1_r; [done|].
  intros ->. by apply Qclt_not_eq in Hy.
Qed.

Lemma div_nonneg (x y : Qc) : 0 ≤ x → 0 < y → 0 ≤ x / y.
Proof.
  intros Hx Hy. unfold Qcdiv. apply Qcmult_nonneg_nonneg; [done|].
  by apply Qclt_le_weak, Qcinv_pos.
Qed.

(** The average of at most [c] bytes lies in [[0, 255]]. *)
Lemma average_bounds (S c : Z) :
  (0 < c)%Z → (0 ≤ S ≤ 255 * c)%Z →
  0 ≤ Qc_of_Z S / Qc_of_Z c ≤ Qc_of_Z 255.
Proof.
  intros Hc [HS0 HS]. split.
  - apply div_nonneg; [by apply Qc_of_Z_nonneg | by apply Qc_of_Z_pos].
  - apply div_le_iff; [by apply Qc_of_Z_pos|].
    by rewrite <- Z2Qc_inj_mul, <- Z2Qc_inj_le.
Qed.

(** ... and, divided by 255, in [[0, 1]]. *)
Lemma normalized_bounds (S c : Z) :
  (0 < c)%Z → (0 ≤ S ≤ 255 * c)%Z →
  0 ≤ Qc_of_Z S / Qc_of_Z c / Qc_of_Z 255 ≤ Qc_of_Z 1.
Proof.
  intros Hc HS. destruct (average_bounds S c Hc HS) as [H0 H255]. split.
  - apply div_nonneg; [done | by apply Qc_of_Z_pos].
  - apply div_le_iff; [by apply Qc_of_Z_pos|].
    by rewrite <- Z2Qc_inj_mul.
Qed.

End number_facts.

(* ===================================================================== *)
(** ** The loops                                                          *)
(* ===================================================================== *)

Section loop_facts.

(** A loop that pushes one value per iteration builds the list of them. *)
Lemma for_loop_push {A} (f : nat → A) (body : nat → list A → list A) n i acc :
  (∀ j l, body j l = l ++ [f j]) →
  for_loop n i body acc = acc ++ map f (seq i n).
Proof.
  intros Hbody. revert i acc.
  induction n as [|n IH]; intros i acc; simpl.
  - by rewrite app_nil_r.
  - by rewrite IH, Hbody, <- app_assoc.
Qed.

Lemma sumZ_cons v (l : list Z) : sumZ (v :: l) = (v + sumZ l)%Z.
Proof. reflexivity. Qed.

Lemma slice_nil_ge (s : list Z) lo hi : hi ≤ lo → slice s lo hi = [].
Proof. intros H. unfold slice. by replace (hi - lo) with 0 by lia. Qed.

Lemma slice_cons (s : list Z) lo hi v :
  s !! lo = Some v → lo < hi → slice s lo hi = v :: slice s (S lo) hi.
Proof.
  intros Hv Hlt. unfold slice.
  rewrite (drop_S _ _ _ Hv).
  by replace (hi - lo) with (S (hi - S lo)) by lia.
Qed.

(** The bounded summing loop adds up the samples between its start and
    the nearer of its end and the end of the array. *)
Lemma sum_while_spec (a : Uint8Array) n j acc :
  sum_while a n j (of_Z acc)
  = of_Z (acc + sumZ (slice a j (min (j + n) (length a)))).
Proof.
  revert j acc. induction n as [|n IH]; intros j acc; cbn [sum_while].
  - rewrite slice_nil_ge by lia. simpl. by rewrite Z.add_0_r.
  - destruct (Nat.ltb_spec j (length a)) as [Hlt|Hge].
    + destruct (lookup_lt_is_Some_2 a j Hlt) as [v Hv].
      unfold get. rewrite Hv, add_of_Z, IH.
      rewrite (slice_cons a j _ v Hv), sumZ_cons by lia.
      replace (S j + n) with (j + S n) by lia. by rewrite Z.add_assoc.
    + rewrite slice_nil_ge by lia. simpl. by rewrite Z.add_0_r.
Qed.

(** The unguarded summing loop of the level accessors, inside the array. *)
Lemma for_loop_sum (a : Uint8Array) n i acc :
  i + n ≤ length a →
  for_loop n i (fun i sum => add sum (get a i)) (of_Z acc)
  = of_Z (acc + sumZ (slice a i (i + n))).
Proof.
  revert i acc. induction n as [|n IH]; intros i acc Hle; cbn [for_loop].
  - rewrite slice_nil_ge by lia. simpl. by rewrite Z.add_0_r.
  - destruct (lookup_lt_is_Some_2 a i) as [v Hv]; [lia|].
    unfold get at 2. rewrite Hv, add_of_Z, IH by lia.
    rewrite (slice_cons a i _ v Hv), sumZ_cons by lia.
    replace (S i + n) with (i + S n) by lia. by rewrite Z.add_assoc.
Qed.

(** The same loop with the counter [getTrebleLevel] keeps beside the sum. *)
Lemma for_loop_sum_count (a : Uint8Array) n i acc cnt :
  i + n ≤ length a →
  for_loop n i
    (fun i '(sum, count) => (add sum (get a i), S count)) (of_Z acc, cnt)
  = (of_Z (acc + sumZ (slice a i (i + n))), cnt + n).
Proof.
  revert i acc cnt. induction n as [|n IH]; intros i acc cnt Hle; cbn [for_loop].
  - rewrite slice_nil_ge by lia. simpl. by rewrite Z.add_0_r, Nat.add_0_r.
  - destruct (lookup_lt_is_Some_2 a i) as [v Hv]; [lia|].
    unfold get at 2. rewrite Hv, add_of_Z, IH by lia.
    rewrite (slice_cons a i _ v Hv), sumZ_cons by lia.
    replace (S i + n) with (i + S n) by lia.
    rewrite Z.add_assoc. f_equal. lia.
Qed.

Lemma sumZ_bounds (l : list Z) :
  Forall (fun v => (0 <= v <= 255)%Z) l →
  (0 ≤ sumZ l ≤ 255 * Z.of_nat (length l))%Z.
Proof.
  induction 1 as [|v l Hv _ IH]; simpl; lia.
Qed.

Lemma slice_wf (s : Uint8Array) lo hi :
  wf_Uint8Array s → wf_Uint8Array (slice s lo hi).
Proof. intros H. unfold slice. by apply Forall_take, Forall_drop. Qed.

Lemma length_slice_le (s : list Z) lo hi : length (slice s lo hi) ≤ hi - lo.
Proof. unfold slice. rewrite length_take. lia. Qed.

Lemma length_slice (s : list Z) lo hi :
  hi ≤ length s → length (slice s lo hi) = hi - lo.
Proof. intros H. unfold slice. rewrite length_take, length_drop. lia. Qed.

(** The sum of a chunk of at most [c] bytes. *)
Lemma chunk_sum_bounds (s : Uint8Array) lo c :
  wf_Uint8Array s →
  (0 ≤ sumZ (slice s lo (min (lo + c) (length s))) ≤ 255 * Z.of_nat c)%Z.
Proof.
  intros Hwf.
  pose proof (sumZ_bounds _ (slice_wf s lo (min (lo + c) (length s)) Hwf)) as Hb.
  pose proof (length_slice_le s lo (min (lo + c) (length s))). lia.
Qed.

(** With at most as many bars as samples, every chunk lies inside the
    array: the second test of the summing loop never cuts a chunk short. *)
Lemma chunk_inside len barCount i :
  0 < barCount → i < barCount →
  i * (len / barCount) + len / barCount ≤ len.
Proof.
  intros Hb Hi.
  pose proof (Nat.Div0.mul_div_le len barCount) as Hm.
  assert (S i * (len / barCount) ≤ barCount * (len / barCount)) as Hs
    by (apply Nat.mul_le_mono_r; lia).
  simpl in Hs. lia.
Qed.

End loop_facts.

(* ===================================================================== *)
(** ** [normalizeFrequencyData] and [getBarData]                          *)
(* ===================================================================== *)

Section bars.

Local Open Scope Qc_scope.

Lemma normalizeFrequencyData_unfold (s : Uint8Array) (barCount : nat) :
  s ≠ [] →
  normalizeFrequencyData (Some s) barCount
  = map (normalized_bar s (length s / barCount)) (seq 0 barCount).
Proof.
  intros Hs. unfold normalizeFrequencyData.
  destruct (Nat.eqb_spec (length s) 0) as [H0|_].
  { by apply nil_length_inv in H0. }
  rewrite (for_loop_push (normalized_bar s (length s / barCount))); [done|].
  intros j l. cbv zeta. unfold normalized_bar.
  by replace (j * (length s / barCount) + length s / barCount
              - j * (length s / barCount))%nat
    with (length s / barCount)%nat by lia.
Qed.

Lemma getBarData_unfold (f : Uint8Array) (barCount : nat) :
  f ≠ [] →
  getBarData f barCount = map (raw_bar f (length f / barCount)) (seq 0 barCount).
Proof.
  intros Hf. unfold getBarData.
  destruct (Nat.eqb_spec (length f) 0) as [H0|_].
  { by apply nil_length_inv in H0. }
  rewrite (for_loop_push (raw_bar f (length f / barCount))); [done|].
  intros j l. cbv zeta. unfold raw_bar.
  by replace (j * (length f / barCount) + length f / barCount
              - j * (length f / barCount))%nat
    with (length f / barCount)%nat by lia.
Qed.

Lemma raw_bar_pos (f : Uint8Array) (c i : nat) :
  (0 < c)%nat →
  raw_bar f c i
  = Fin (Qc_of_Z (sumZ (slice f (i * c) (min (i * c + c) (length f))))
         / Qc_of_Z (Z.of_nat c)).
Proof.
  intros Hc. unfold raw_bar, zero.
  rewrite sum_while_spec, Z.add_0_l.
  unfold of_nat, of_Z at 1. by rewrite div_Fin_pos by lia.
Qed.

Lemma normalized_bar_pos (s : Uint8Array) (c i : nat) :
  (0 < c)%nat →
  normalized_bar s c i
  = Fin (Qc_of_Z (sumZ (slice s (i * c) (min (i * c + c) (length s))))
         / Qc_of_Z (Z.of_nat c) / Qc_of_Z 255).
Proof.
  intros Hc. change (normalized_bar s c i) with (div (raw_bar s c i) (of_Z 255)).
  by rewrite raw_bar_pos, div_Fin_pos by lia.
Qed.

(** With a chunk size of zero nothing is summed and [0 / 0] is pushed. *)
Lemma normalized_bar_zero (s : Uint8Array) (i : nat) : normalized_bar s 0 i = NaN.
Proof. reflexivity. Qed.

Lemma lookup_map_seq_0 {A} (g : nat → A) n i :
  (i < n)%nat → map g (seq 0 n) !! i = Some (g i).
Proof.
  intros Hi. rewrite list_lookup_fmap, lookup_seq_lt by done. done.
Qed.

Lemma map_seq_const {A} (g : nat → A) (v : A) n k :
  (∀ i, g i = v) → map g (seq k n) = replicate n v.
Proof.
  intros Hg. revert k. induction n as [|n IH]; intros k; [done|].
  cbn [seq map replicate]. by rewrite Hg, IH.
Qed.

Lemma sumZ_all_zero (l : list Z) : Forall (eq 0%Z) l → sumZ l = 0%Z.
Proof. induction 1 as [|v l <- _ IH]; [done|]. by rewrite sumZ_cons, IH. Qed.

(** An all-zero snapshot with at most as many bars as samples: every bar
    is 0. *)
Lemma normalizeFrequencyData_all_zero_within (s : Uint8Array) (barCount : nat) :
  Forall (eq 0%Z) s → (0 < barCount ≤ length s)%nat →
  normalizeFrequencyData (Some s) barCount = replicate barCount zero.
Proof.
  intros Hz [Hpos Hle].
  assert (s ≠ []) as Hs by (intros ->; simpl in Hle; lia).
  assert (0 < length s / barCount)%nat as Hc by (apply Nat.div_str_pos; lia).
  rewrite normalizeFrequencyData_unfold by done.
  assert (∀ i, normalized_bar s (length s / barCount) i = zero) as Hbar.
  { intros i. unfold normalized_bar, zero at 1.
    rewrite sum_while_spec, Z.add_0_l, sumZ_all_zero.
    - apply (zero_div_pos (Z.of_nat (length s / barCount)) 255); lia.
    - unfold slice. by apply Forall_take, Forall_drop. }
  by apply map_seq_const.
Qed.

(** More bars than samples: every bar is NaN. *)
Lemma normalizeFrequencyData_short (s : Uint8Array) (barCount : nat) :
  s ≠ [] → (length s < barCount)%nat →
  normalizeFrequencyData (Some s) barCount = replicate barCount NaN.
Proof.
  intros Hs Hlt. rewrite normalizeFrequencyData_unfold by done.
  rewrite Nat.div_small by done.
  apply map_seq_const, normalized_bar_zero.
Qed.

End bars.

(* ===================================================================== *)
(** ** Properties of the bar reductions                                   *)
(* ===================================================================== *)

Section bar_properties.

Local Open Scope Qc_scope.

(** C1.  With [0 < barCount <= len(s)] and [chunkSize = floor(len(s) /
    barCount)], [normalizeFrequencyData(s, barCount)] has [barCount] bars
    and bar [i] is the sum of [s[j]] for [j] from [i * chunkSize] up to
    [min(i * chunkSize + chunkSize, len(s))], divided by [chunkSize] and
    then by 255: the divisor is the full [chunkSize] whatever the number
    of samples summed.  On the snapshot [0,64,128,192,255,255,192,128] with
    four bars the result is [32/255, 160/255, 255/255, 160/255]. *)
Theorem normalizeFrequencyData_chunk_average :
  (∀ (s : Uint8Array) (barCount : nat),
     (0 < barCount ≤ length s)%nat →
     let chunkSize := (length s / barCount)%nat in
     length (normalizeFrequencyData (Some s) barCount) = barCount ∧
     ∀ i, (i < barCount)%nat →
       normalizeFrequencyData (Some s) barCount !! i
       = Some (Fin (Qc_of_Z (sumZ (slice s (i * chunkSize)
                                     (min (i * chunkSize + chunkSize) (length s))))
                    / Qc_of_Z (Z.of_nat chunkSize) / Qc_of_Z 255))) ∧
  normalizeFrequencyData (Some scenario_snapshot) 4
  = [Fin (Qc_of_Z 32 / Qc_of_Z 255); Fin (Qc_of_Z 160 / Qc_of_Z 255);
     Fin (Qc_of_Z 255 / Qc_of_Z 255); Fin (Qc_of_Z 160 / Qc_of_Z 255)].
Proof.
  split.
  - intros s barCount [Hpos Hle] chunkSize.
    assert (s ≠ []) as Hs by (intros ->; simpl in Hle; lia).
    assert (0 < chunkSize)%nat as Hc
      by (apply Nat.div_str_pos; lia).
    rewrite normalizeFrequencyData_unfold by done. split.
    + by rewrite length_map, length_seq.
    + intros i Hi. rewrite lookup_map_seq_0 by done.
      by rewrite normalized_bar_pos.
  - apply (bool_decide_unpack _). by vm_compute.
Qed.

(** C1, at the scenario of the specification: 8 samples, 4 bars. *)
Lemma normalizeFrequencyData_chunk_average_witness :
  (0 < 4 ≤ length scenario_snapshot)%nat ∧
  length (normalizeFrequencyData (Some scenario_snapshot) 4) = 4%nat.
Proof.
  split; [simpl; lia|].
  apply (proj1 normalizeFrequencyData_chunk_average scenario_snapshot 4).
  simpl; lia.
Defined.

(** C2.  For a snapshot [s] of bytes and [0 < barCount <= len(s)] (so [s]
    is not empty), [normalizeFrequencyData(s, barCount)] has exactly
    [barCount] elements and each of them lies in [[0, 1]]. *)
Theorem normalizeFrequencyData_length_unit_interval
    (s : Uint8Array) (barCount : nat) :
  wf_Uint8Array s →
  (0 < barCount ≤ length s)%nat →
  length (normalizeFrequencyData (Some s) barCount) = barCount ∧
  Forall (between zero one) (normalizeFrequencyData (Some s) barCount).
Proof.
  intros Hwf [Hpos Hle].
  assert (s ≠ []) as Hs by (intros ->; simpl in Hle; lia).
  assert (0 < length s / barCount)%nat as Hc by (apply Nat.div_str_pos; lia).
  rewrite normalizeFrequencyData_unfold by done. split.
  - by rewrite length_map, length_seq.
  - apply Forall_fmap, Forall_true. intros i. unfold compose.
    rewrite normalized_bar_pos by done.
    apply (normalized_bounds _ (Z.of_nat (length s / barCount))); [lia|].
    by apply chunk_sum_bounds.
Qed.

Lemma normalizeFrequencyData_length_unit_interval_witness :
  length (normalizeFrequencyData (Some scenario_snapshot) 4) = 4%nat ∧
  Forall (between zero one) (normalizeFrequencyData (Some scenario_snapshot) 4).
Proof.
  apply (normalizeFrequencyData_length_unit_interval scenario_snapshot 4).
  - unfold wf_Uint8Array, scenario_snapshot. repeat constructor; lia.
  - simpl; lia.
Defined.

(** C3.  What the code does when there are more bars than samples: the
    chunk size is 0, every bar is [0 / 0 / 255], and the array returned is
    filled with NaN, not with zeros.  [[10]] with two bars is such an
    input. *)
Theorem normalizeFrequencyData_more_bars_than_samples :
  (∀ (s : Uint8Array) (barCount : nat),
     s ≠ [] → (length s < barCount)%nat →
     normalizeFrequencyData (Some s) barCount = replicate barCount NaN) ∧
  normalizeFrequencyData (Some [10%Z]) 2 = [NaN; NaN] ∧
  normalizeFrequencyData (Some [10%Z]) 2 ≠ Array_fill 2 zero.
Proof.
  split; [apply normalizeFrequencyData_short|]. by split.
Qed.

(** C4.  For a missing snapshot and for an empty one,
    [normalizeFrequencyData] returns [barCount] zeros, whatever
    [barCount]: the guard answers before the array is read. *)
Theorem normalizeFrequencyData_missing_or_empty (barCount : nat) :
  normalizeFrequencyData None barCount = Array_fill barCount zero ∧
  normalizeFrequencyData (Some []) barCount = Array_fill barCount zero ∧
  length (Array_fill barCount zero) = barCount ∧
  Forall (eq zero) (Array_fill barCount zero).
Proof.
  repeat split.
  - apply length_replicate.
  - apply Forall_replicate. done.
Qed.

(** C5.  What the code does on an all-zero snapshot shorter than the
    number of bars: [[0]] with two bars gives [[NaN, NaN]], and so does
    every non-empty all-zero snapshot with more bars than samples.  With
    at most as many bars as samples, and on the empty snapshot, the result
    is all zeros. *)
Theorem normalizeFrequencyData_all_zero_short :
  normalizeFrequencyData (Some [0%Z]) 2 = [NaN; NaN] ∧
  (∀ (n barCount : nat),
     (0 < n < barCount)%nat →
     normalizeFrequencyData (Some (replicate n 0%Z)) barCount
     = replicate barCount NaN) ∧
  (∀ (n barCount : nat),
     (n = 0 ∨ 0 < barCount ≤ n)%nat →
     normalizeFrequencyData (Some (replicate n 0%Z)) barCount
     = replicate barCount zero).
Proof.
  split; [done|]. split.
  - intros n barCount [Hn Hlt].
    apply normalizeFrequencyData_short.
    + destruct n; [lia|done].
    + by rewrite length_replicate.
  - intros n barCount [->|Hle]; [done|].
    apply normalizeFrequencyData_all_zero_within.
    + by apply Forall_replicate.
    + by rewrite length_replicate.
Qed.

End bar_properties.

Section hook_bars.

Local Open Scope Qc_scope.

(** C10.  For a non-empty [frequencyData] of bytes and [0 < barCount <=
    len(frequencyData)], the hook's [getBarData(barCount)] has [barCount]
    elements, element [i] is the sum of its chunk divided by
    [floor(len / barCount)] and by nothing else, and each element lies in
    [[0, 255]]; the full-scale sample shows that the bound 1 of the
    normalized form does not hold here. *)
Theorem getBarData_raw_average :
  (∀ (frequencyData : Uint8Array) (barCount : nat),
     wf_Uint8Array frequencyData →
     (0 < barCount ≤ length frequencyData)%nat →
     let dataPoints := (length frequencyData / barCount)%nat in
     length (getBarData frequencyData barCount) = barCount ∧
     (∀ i, (i < barCount)%nat →
        getBarData frequencyData barCount !! i
        = Some (Fin (Qc_of_Z (sumZ (slice frequencyData (i * dataPoints)
                                      (i * dataPoints + dataPoints)))
                     / Qc_of_Z (Z.of_nat dataPoints)))) ∧
     Forall (between zero (of_Z 255)) (getBarData frequencyData barCount)) ∧
  getBarData [255%Z] 1 = [of_Z 255] ∧ ¬ between zero one (of_Z 255).
Proof.
  split.
  - intros f barCount Hwf [Hpos Hle] dataPoints.
    assert (f ≠ []) as Hf by (intros ->; simpl in Hle; lia).
    assert (0 < dataPoints)%nat as Hc by (apply Nat.div_str_pos; lia).
    rewrite getBarData_unfold by done. fold dataPoints. split; [|split].
    + by rewrite length_map, length_seq.
    + intros i Hi. rewrite lookup_map_seq_0, raw_bar_pos by done.
      pose proof (chunk_inside (length f) barCount i Hpos Hi).
      by rewrite Nat.min_l by done.
    + apply Forall_fmap, Forall_true. intros i. unfold compose.
      rewrite raw_bar_pos by done.
      apply (average_bounds _ (Z.of_nat dataPoints)); [lia|].
      by apply chunk_sum_bounds.
  - split; [apply (bool_decide_unpack _); by vm_compute|].
    intros [_ H]. vm_compute in H. by apply H.
Qed.

Lemma getBarData_raw_average_witness :
  length (getBarData scenario_snapshot 4) = 4%nat.
Proof.
  apply (proj1 getBarData_raw_average scenario_snapshot 4).
  - unfold wf_Uint8Array, scenario_snapshot. repeat constructor; lia.
  - simpl; lia.
Defined.

End hook_bars.

(* ===================================================================== *)
(** ** Bass and treble levels                                             *)
(* ===================================================================== *)

Section levels.

(** [Math.floor(100 * 0.1)] and [Math.floor(100 * 0.7)] in binary64. *)
Lemma bassRange_100 : floor_scaled 100 0.1 = 10.
Proof. by vm_compute. Qed.

Lemma trebleStart_100 : floor_scaled 100 0.7 = 70.
Proof. by vm_compute. Qed.

(** The product is rounded: with 90 bins the treble band starts at bin
    62, one below [floor(7 * 90 / 10)]. *)
Lemma trebleStart_90 : floor_scaled 90 0.7 = 62.
Proof. by vm_compute. Qed.

Lemma getBassLevel_unfold (f : Uint8Array) :
  f ≠ [] →
  let bassRange := floor_scaled (length f) 0.1 in
  bassRange ≤ length f →
  getBassLevel f = div (of_Z (sumZ (slice f 0 bassRange))) (of_nat bassRange).
Proof.
  intros Hf bassRange Hle. unfold getBassLevel.
  destruct (Nat.eqb_spec (length f) 0) as [H0|_].
  { by apply nil_length_inv in H0. }
  cbv zeta. fold bassRange. unfold zero.
  by rewrite for_loop_sum, Z.add_0_l by (simpl; lia).
Qed.

Lemma getTrebleLevel_unfold (f : Uint8Array) :
  f ≠ [] →
  let trebleStart := floor_scaled (length f) 0.7 in
  trebleStart < length f →
  getTrebleLevel f
  = div (of_Z (sumZ (slice f trebleStart (length f))))
        (of_nat (length f - trebleStart)).
Proof.
  intros Hf trebleStart Hlt. unfold getTrebleLevel.
  destruct (Nat.eqb_spec (length f) 0) as [H0|_].
  { by apply nil_length_inv in H0. }
  cbv zeta. fold trebleStart. unfold zero.
  rewrite for_loop_sum_count, Z.add_0_l by lia.
  replace (trebleStart + (length f - trebleStart)) with (length f) by lia.
  destruct (Nat.ltb_spec 0 (0 + (length f - trebleStart))) as [_|H]; [done|lia].
Qed.

(** C7.  For a snapshot of length 100, [getBassLevel] is the mean of
    [s[0..10)] and [getTrebleLevel] the mean of [s[70..100)]; for the empty
    snapshot both are 0. *)
Theorem levels_of_100_bins :
  (∀ s : Uint8Array,
     length s = 100 →
     getBassLevel s = mean (slice s 0 10) ∧
     getTrebleLevel s = mean (slice s 70 100)) ∧
  getBassLevel [] = zero ∧ getTrebleLevel [] = zero.
Proof.
  split; [|done]. intros s Hlen.
  assert (s ≠ []) as Hs by (intros ->; simpl in Hlen; lia).
  unfold mean. rewrite !length_slice by lia. split.
  - rewrite getBassLevel_unfold; rewrite ?Hlen, ?bassRange_100; [done..|lia].
  - rewrite getTrebleLevel_unfold; rewrite ?Hlen, ?trebleStart_100; [done..|lia].
Qed.

Lemma levels_of_100_bins_witness :
  getBassLevel (replicate 100 7%Z) = mean (slice (replicate 100 7%Z) 0 10).
Proof.
  apply (proj1 levels_of_100_bins (replicate 100 7%Z)).
  by rewrite length_replicate.
Defined.

End levels.

(* ===================================================================== *)
(** ** File validation                                                    *)
(* ===================================================================== *)

Section validation.

Lemma includes_elem_of (l : list string) (t : string) :
  includes l t = true ↔ t ∈ l.
Proof.
  unfold includes. induction l as [|x l IH]; simpl.
  - split; [done|]. by intros ?%elem_of_nil.
  - rewrite orb_true_iff, IH, elem_of_cons, String.eqb_eq. done.
Qed.

(** C8.  [validateAudioFile] answers [{ valid: false }] with an error
    message exactly for the rejected files, and [{ valid: true }] with no
    message for all the others.  The function reads its argument and
    nothing else: it touches no player state. *)
Theorem validateAudioFile_rejects_exactly (f : option File) :
  (valid (validateAudioFile f) = false ∧ is_Some (error (validateAudioFile f))
   ↔ rejected f) ∧
  (¬ rejected f → validateAudioFile f = mkValidation true None).
Proof.
  destruct f as [f|]; [|by cbn; intuition eauto].
  change (rejected (Some f))
    with (type f ∉ validTypes ∨ (size f > maxSize)%Z).
  unfold validateAudioFile.
  destruct (includes validTypes (type f)) eqn:Hinc; cbn [negb].
  - apply includes_elem_of in Hinc.
    destruct (Z.gtb_spec (size f) maxSize) as [Hgt|Hle]; cbn [valid error].
    + split; [|intros []; right; lia].
      split; [intros _; right; lia | eauto].
    + split; [|done].
      split; [by intros [? _]|]. intros [Hn|Hgt]; [done|lia].
  - assert (type f ∉ validTypes) as Hn.
    { intros Hin%includes_elem_of. congruence. }
    cbn [valid error]. split; [|intros []; by left].
    split; [by left | eauto].
Qed.

End validation.

(* ===================================================================== *)
(** ** The local cache                                                    *)
(* ===================================================================== *)

Section cache.

Lemma startsWith_spec (key p : string) :
  startsWith key p = true ↔ starts_with p key.
Proof.
  unfold startsWith, starts_with. revert key.
  induction p as [|c p IH]; intros key; simpl.
  - split; [|by destruct key]. intros _. exists key. by destruct key.
  - destruct key as [|d key]; simpl.
    + split; [done|]. by intros [rest ?].
    + destruct (Ascii.ascii_dec c d) as [->|Hne].
      * rewrite IH. split.
        -- intros [rest ->]. by exists rest.
        -- intros [rest Hr]. exists rest. simpl in Hr. by injection Hr.
      * split; [done|]. intros [rest Hr]. simpl in Hr.
        injection Hr as Hd _. by destruct Hne.
Qed.

Lemma cache_key_spec (key : string) :
  startsWith key "audio_" || startsWith key "player_" = true ↔ cache_key key.
Proof. unfold cache_key. by rewrite orb_true_iff, !startsWith_spec. Qed.

(** One pass of the [forEach] over any list of keys. *)
Lemma forEach_remove_lookup (keys : list string) (st : gmap string string) k :
  foldl (fun st key =>
           if startsWith key "audio_" || startsWith key "player_"
           then delete key st else st) st keys !! k
  = if (startsWith k "audio_" || startsWith k "player_") && bool_decide (k ∈ keys)
    then None else st !! k.
Proof.
  revert st. induction keys as [|key keys IH]; intros st; cbn [foldl].
  - rewrite bool_decide_eq_false_2 by apply not_elem_of_nil.
    by rewrite andb_false_r.
  - rewrite IH. destruct (decide (k = key)) as [->|Hne].
    + rewrite (bool_decide_eq_true_2 (key ∈ key :: keys)) by left.
      rewrite andb_true_r.
      destruct (startsWith key "audio_" || startsWith key "player_");
        [|done].
      rewrite lookup_delete_eq. by destruct (bool_decide _).
    + assert (bool_decide (k ∈ key :: keys) = bool_decide (k ∈ keys)) as ->.
      { apply bool_decide_ext. rewrite elem_of_cons.
        split; [by intros [?|?] | by right]. }
      destruct (startsWith key "audio_" || startsWith key "player_");
        [|done].
      by rewrite lookup_delete_ne.
Qed.

Lemma elem_of_Object_keys (st : gmap string string) k :
  k ∈ Object_keys st ↔ is_Some (st !! k).
Proof.
  unfold Object_keys. rewrite list_elem_of_fmap. split.
  - intros ([k' v] & -> & Hin). apply elem_of_map_to_list in Hin. eauto.
  - intros [v Hv]. exists (k, v). split; [done|]. by apply elem_of_map_to_list.
Qed.

(** C9.  After [clearAudioCache] no key that starts with [audio_] or
    [player_] is left, every other key has the value it had, and the call
    returns [true]. *)
Theorem clearAudioCache_removes_prefixed_only (localStorage : gmap string string) :
  (∀ key, cache_key key → (clearAudioCache localStorage).1 !! key = None) ∧
  (∀ key, ¬ cache_key key →
     (clearAudioCache localStorage).1 !! key = localStorage !! key) ∧
  (clearAudioCache localStorage).2 = true.
Proof.
  unfold clearAudioCache; simpl. split; [|split; [|done]].
  - intros key Hk. rewrite forEach_remove_lookup.
    apply cache_key_spec in Hk. rewrite Hk, andb_true_l.
    case_bool_decide as H; [done|].
    rewrite elem_of_Object_keys in H. by apply eq_None_not_Some.
  - intros key Hk. rewrite forEach_remove_lookup.
    rewrite <- cache_key_spec in Hk. apply not_true_is_false in Hk.
    by rewrite Hk.
Qed.

End cache.

(* ===================================================================== *)
(** ** Smoothing                                                          *)
(* ===================================================================== *)

Section smoothing.

Local Open Scope Qc_scope.

Lemma Array_get_app_end (l : list number) (x : number) (rest : list number) :
  Array_get (l ++ x :: rest) (length l) = x.
Proof. unfold Array_get. by rewrite list_lookup_middle. Qed.

Lemma Array_set_end (l : list number) (v : number) :
  Array_set l (length l) v = l ++ [v].
Proof.
  unfold Array_set. rewrite Nat.ltb_irrefl, Nat.sub_diag. done.
Qed.

(** The loop of [smoothArray], started anywhere inside the array. *)
Lemma smooth_loop (k : number) (rest pre sm : list number) (p : number) :
  length pre = S (length sm) →
  for_loop (length rest) (S (length sm))
    (fun i smoothed =>
       Array_set smoothed i
         (add (mul (Array_get smoothed (i - 1)) k)
              (mul (Array_get (pre ++ rest) i) (sub one k))))
    (sm ++ [p])
  = sm ++ p :: smooth_from p k rest.
Proof.
  revert pre sm p. induction rest as [|x rest IH]; intros pre sm p Hlen.
  - done.
  - cbn [length for_loop smooth_from].
    replace (S (length sm) - 1)%nat with (length sm) by lia.
    rewrite Array_get_app_end.
    rewrite <- Hlen at 3. rewrite Array_get_app_end.
    replace (S (length sm)) with (length (sm ++ [p])) at 2
      by (rewrite length_app; simpl; lia).
    rewrite Array_set_end.
    replace (S (S (length sm))) with (S (length (sm ++ [p])))
      by (rewrite length_app; simpl; lia).
    replace (pre ++ x :: rest) with ((pre ++ [x]) ++ rest)
      by (by rewrite <- app_assoc).
    rewrite IH by (rewrite !length_app; simpl; lia).
    by rewrite <- app_assoc.
Qed.

Lemma smoothArray_unfold (x0 : number) (rest : list number) (k : number) :
  smoothArray (Some (x0 :: rest)) k = Some (x0 :: smooth_from x0 k rest).
Proof.
  unfold smoothArray. cbn [length Nat.eqb]. f_equal.
  replace (S (length rest) - 1)%nat with (length rest) by lia.
  change (Array_get (x0 :: rest) 0) with x0.
  apply (smooth_loop k rest [x0] [] x0). done.
Qed.

Lemma length_smooth_from (p k : number) (rest : list number) :
  length (smooth_from p k rest) = length rest.
Proof.
  revert p. induction rest as [|x rest IH]; intros p; simpl; [done|].
  by rewrite IH.
Qed.

(** Every value after the first is computed from the one before it. *)
Lemma smooth_from_recurrence (k x0 : number) (rest : list number) (i : nat) :
  (1 ≤ i < length (x0 :: rest))%nat →
  Array_get (x0 :: smooth_from x0 k rest) i
  = add (mul (Array_get (x0 :: smooth_from x0 k rest) (i - 1)) k)
        (mul (Array_get (x0 :: rest) i) (sub one k)).
Proof.
  revert x0 i. induction rest as [|x rest IH]; intros x0 i [H1 Hi].
  - simpl in Hi. lia.
  - destruct i as [|[|i]]; [lia|done|].
    cbn [smooth_from].
    change (Array_get (x0 :: ?l) (S ?j)) with (Array_get l j).
    replace (S (S i) - 1)%nat with (S i) by lia.
    change (Array_get (x0 :: ?l) (S ?j)) with (Array_get l j).
    rewrite IH by (simpl in *; lia).
    by replace (S i - 1)%nat with i by lia.
Qed.

Lemma smooth_step_zero (p x : Qc) :
  add (mul (Fin p) zero) (mul (Fin x) (sub one zero)) = Fin x.
Proof.
  unfold zero, one, of_Z. cbn [add mul sub neg].
  rewrite Z2Qc_inj_0, Z2Qc_inj_1. f_equal. ring.
Qed.

Lemma smooth_step_one (p x : Qc) :
  add (mul (Fin p) one) (mul (Fin x) (sub one one)) = Fin p.
Proof.
  unfold one, of_Z. cbn [add mul sub neg].
  rewrite Z2Qc_inj_1. f_equal. ring.
Qed.

(** With factor 0 and finite values the smoothed values are the raw ones. *)
Lemma smooth_from_zero (p : number) (rest : list number) :
  is_finite p → Forall is_finite rest → smooth_from p zero rest = rest.
Proof.
  intros Hp Hrest. revert p Hp.
  induction Hrest as [|x rest Hx _ IH]; intros p Hp; [done|].
  destruct p as [p| | |]; [|done..]. destruct x as [x| | |]; [|done..].
  cbn [smooth_from]. rewrite smooth_step_zero. by rewrite IH.
Qed.

(** With factor 1 and finite values every smoothed value is the first. *)
Lemma smooth_from_one (p : number) (rest : list number) :
  is_finite p → Forall is_finite rest →
  smooth_from p one rest = replicate (length rest) p.
Proof.
  intros Hp Hrest. revert p Hp.
  induction Hrest as [|x rest Hx _ IH]; intros p Hp; [done|].
  destruct p as [p| | |]; [|done..]. destruct x as [x| | |]; [|done..].
  cbn [smooth_from]. rewrite smooth_step_one. by rewrite IH.
Qed.

(** C6.  For every non-empty array and every smoothing factor,
    [smoothArray] keeps the length and the first element and computes each
    later element as [smoothed[i-1] * k + raw[i] * (1 - k)].  When the
    elements of the array are finite numbers, the result for [k = 0] is the
    array itself and for [k = 1] every element of the result is [raw[0]]. *)
Theorem smoothArray_recurrence :
  (∀ (raw : list number) (k : number),
     raw ≠ [] →
     ∃ smoothed,
       smoothArray (Some raw) k = Some smoothed ∧
       length smoothed = length raw ∧
       smoothed !! 0%nat = raw !! 0%nat ∧
       ∀ i, (1 ≤ i < length raw)%nat →
         Array_get smoothed i
         = add (mul (Array_get smoothed (i - 1)) k)
               (mul (Array_get raw i) (sub one k))) ∧
  (∀ raw : list number,
     raw ≠ [] → Forall is_finite raw →
     smoothArray (Some raw) zero = Some raw) ∧
  (∀ raw : list number,
     raw ≠ [] → Forall is_finite raw →
     ∃ smoothed,
       smoothArray (Some raw) one = Some smoothed ∧
       length smoothed = length raw ∧
       ∀ i, (i < length raw)%nat → smoothed !! i = raw !! 0%nat).
Proof.
  split; [|split].
  - intros [|x0 rest] k Hne; [done|].
    exists (x0 :: smooth_from x0 k rest). rewrite smoothArray_unfold.
    split; [done|]. split; [by cbn [length]; rewrite length_smooth_from|].
    split; [done|]. apply smooth_from_recurrence.
  - intros [|x0 rest] Hne Hfin; [done|].
    apply Forall_cons_1 in Hfin as [H0 Hrest].
    by rewrite smoothArray_unfold, smooth_from_zero.
  - intros [|x0 rest] Hne Hfin; [done|].
    apply Forall_cons_1 in Hfin as [H0 Hrest].
    exists (replicate (S (length rest)) x0).
    rewrite smoothArray_unfold, smooth_from_one by done.
    split; [done|]. split; [by rewrite length_replicate|].
    intros i Hi. cbn [length] in Hi. by rewrite lookup_replicate_2.
Qed.

Lemma smoothArray_recurrence_witness :
  smoothArray (Some [of_Z 4; of_Z 8; of_Z 2]) zero
  = Some [of_Z 4; of_Z 8; of_Z 2].
Proof.
  apply (proj1 (proj2 smoothArray_recurrence) [of_Z 4; of_Z 8; of_Z 2]).
  - done.
  - repeat constructor.
Defined.

(** C6 as it is worded, for every array: with an infinite first element
    and [k = 0], [Infinity * 0] is NaN and the second element of the result
    is not the raw one; with [k = 1] an infinite later element does the
    same. *)
Lemma smoothArray_infinite_element :
  smoothArray (Some [PosInf; one]) zero = Some [PosInf; NaN] ∧
  smoothArray (Some [PosInf; one]) zero ≠ Some [PosInf; one] ∧
  smoothArray (Some [one; PosInf]) one = Some [one; NaN] ∧
  ¬ (∀ raw : list number, raw ≠ [] → smoothArray (Some raw) zero = Some raw).
Proof.
  assert (smoothArray (Some [PosInf; one]) zero = Some [PosInf; NaN]) as H0
    by (apply (bool_decide_unpack _); by vm_compute).
  split; [done|]. split; [by rewrite H0|].
  split; [apply (bool_decide_unpack _); by vm_compute|].
  intros H. specialize (H [PosInf; one]). rewrite H0 in H.
  by specialize (H ltac:(done)).
Qed.

End smoothing.


(* ===================================================================== *)
(** ** Further properties of the reductions                               *)
(* ===================================================================== *)

Section more_bars.

Local Open Scope Qc_scope.

Lemma getCircularData_unfold (trig : Trig) (f : Uint8Array) (points : nat) :
  f ≠ [] →
  getCircularData trig f points
  = map (fun i =>
           let amplitude := raw_bar f (length f / points) i in
           let angle :=
             mul (mul (div (of_nat i) (of_nat points)) (Math_PI trig)) (of_Z 2) in
           Point {| cp_x := mul (Math_cos trig angle) amplitude;
                    cp_y := mul (Math_sin trig angle) amplitude;
                    cp_amplitude := amplitude;
                    cp_angle := angle |})
        (seq 0 points).
Proof.
  intros Hf. unfold getCircularData.
  destruct (Nat.eqb_spec (length f) 0) as [H0|_].
  { by apply nil_length_inv in H0. }
  erewrite for_loop_push; [done|].
  intros j l. cbv zeta. unfold raw_bar.
  by replace (j * (length f / points) + length f / points
              - j * (length f / points))%nat
    with (length f / points)%nat by lia.
Qed.

Lemma getWaveformPoints_unfold (w : Uint8Array) (points : nat) :
  w ≠ [] →
  getWaveformPoints w points
  = map (fun i => get_or w (i * (length w / points)) 128) (seq 0 points).
Proof.
  intros Hw. unfold getWaveformPoints.
  destruct (Nat.eqb_spec (length w) 0) as [H0|_].
  { by apply nil_length_inv in H0. }
  by erewrite for_loop_push.
Qed.

(** X1.  Every reduction of the hook and of the utilities returns exactly as
    many elements as it is asked for, whatever the snapshot: missing,
    empty, or shorter than the number of elements. *)
Theorem reductions_have_requested_length
    (trig : Trig) (dataArray : option Uint8Array) (f : Uint8Array) (n : nat) :
  length (normalizeFrequencyData dataArray n) = n ∧
  length (getBarData f n) = n ∧
  length (getCircularData trig f n) = n ∧
  length (getWaveformPoints f n) = n.
Proof.
  assert (∀ {A} (v : A), length (Array_fill n v) = n) as Hfill
    by (intros; apply length_replicate).
  split; [|split; [|split]].
  - destruct dataArray as [[|v s]|]; [apply Hfill| |apply Hfill].
    rewrite normalizeFrequencyData_unfold by done.
    by rewrite length_map, length_seq.
  - destruct f as [|v f]; [apply Hfill|].
    rewrite getBarData_unfold by done. by rewrite length_map, length_seq.
  - destruct f as [|v f]; [apply Hfill|].
    rewrite getCircularData_unfold by done. by rewrite length_map, length_seq.
  - destruct f as [|v f]; [apply Hfill|].
    rewrite getWaveformPoints_unfold by done. by rewrite length_map, length_seq.
Qed.

Lemma slice_take (s : list Z) lo hi K :
  (hi ≤ K)%nat → slice s lo hi = slice (take K s) lo hi.
Proof.
  intros Hle. unfold slice.
  destruct (decide (lo ≤ hi)%nat) as [Hlo|Hlo].
  - rewrite !take_drop_commute.
    replace (lo + (hi - lo))%nat with hi by lia.
    by rewrite take_take, Nat.min_l.
  - by replace (hi - lo)%nat with 0%nat by lia.
Qed.

(** X2.  The samples after the last whole chunk are never read: two snapshots
    of the same length that agree on the first
    [barCount * floor(len / barCount)] samples give the same bars. *)
Theorem normalizeFrequencyData_ignores_remainder
    (s1 s2 : Uint8Array) (barCount : nat) :
  length s1 = length s2 →
  take (barCount * (length s1 / barCount)) s1
  = take (barCount * (length s1 / barCount)) s2 →
  normalizeFrequencyData (Some s1) barCount
  = normalizeFrequencyData (Some s2) barCount.
Proof.
  intros Hlen Htake.
  destruct (decide (s1 = [])) as [->|Hs1].
  { symmetry in Hlen. apply nil_length_inv in Hlen. by subst. }
  assert (s2 ≠ []) as Hs2.
  { intros ->. simpl in Hlen. by apply nil_length_inv in Hlen. }
  rewrite !normalizeFrequencyData_unfold by done. rewrite <- Hlen.
  set (c := (length s1 / barCount)%nat) in *.
  apply list_eq. intros i. rewrite !list_lookup_fmap.
  destruct (seq 0 barCount !! i) as [j|] eqn:Hj; [|done].
  apply lookup_seq in Hj as [-> Hi]. simpl. f_equal.
  destruct (decide (c = 0)%nat) as [->|Hc]; [done|].
  rewrite !normalized_bar_pos by lia. rewrite <- Hlen.
  assert (i * c + c ≤ barCount * c)%nat as Hin.
  { replace (i * c + c)%nat with (S i * c)%nat by lia.
    apply Nat.mul_le_mono_r. lia. }
  rewrite (slice_take s1 _ _ (barCount * c)) by lia.
  rewrite (slice_take s2 _ _ (barCount * c)) by lia.
  by rewrite Htake.
Qed.

Lemma normalizeFrequencyData_ignores_remainder_witness :
  normalizeFrequencyData (Some [10; 20; 30]%Z) 2
  = normalizeFrequencyData (Some [10; 20; 99]%Z) 2.
Proof.
  by apply normalizeFrequencyData_ignores_remainder.
Defined.

(** X3.  The normalized bars are the hook's raw bars divided by 255, for every
    snapshot and every number of bars. *)
Theorem normalizeFrequencyData_is_getBarData_over_255
    (s : Uint8Array) (barCount : nat) :
  normalizeFrequencyData (Some s) barCount
  = map (fun v => div v (of_nat 255)) (getBarData s barCount).
Proof.
  destruct (decide (s = [])) as [->|Hs].
  - unfold normalizeFrequencyData, getBarData, Array_fill. simpl.
    rewrite fmap_replicate. f_equal.
    symmetry. apply (bool_decide_unpack _). by vm_compute.
  - rewrite normalizeFrequencyData_unfold, getBarData_unfold by done.
    by rewrite <- list_fmap_compose.
Qed.

(** X4.  The points of the circular layout carry the amplitudes of the bars. *)
Theorem getCircularData_amplitudes
    (trig : Trig) (frequencyData : Uint8Array) (points : nat) :
  map entry_amplitude (getCircularData trig frequencyData points)
  = getBarData frequencyData points.
Proof.
  destruct (decide (frequencyData = [])) as [->|Hf].
  - unfold getCircularData, getBarData, Array_fill. simpl.
    by rewrite fmap_replicate.
  - rewrite getCircularData_unfold, getBarData_unfold by done.
    by rewrite <- list_fmap_compose.
Qed.

End more_bars.

(* ===================================================================== *)
(** ** Waveform points, average and levels                                *)
(* ===================================================================== *)

Section more_levels.

Local Open Scope Qc_scope.

Lemma between_byte (lo : Z) (v : Z) :
  (lo ≤ v ≤ 255)%Z → between (of_Z lo) (of_Z 255) (of_Z v).
Proof.
  intros [H1 H2]. split; simpl; by rewrite <- Z2Qc_inj_le.
Qed.

Lemma get_or_range (w : Uint8Array) (index : nat) :
  wf_Uint8Array w → between one (of_Z 255) (get_or w index 128).
Proof.
  intros Hwf. unfold get_or, one.
  destruct (w !! index) as [v|] eqn:Hv; [|by apply between_byte].
  destruct (Z.eqb_spec v 0) as [->|Hne]; [by apply between_byte|].
  apply between_byte.
  pose proof (Forall_lookup_1 _ _ _ _ Hwf Hv) as Hb. simpl in Hb. lia.
Qed.

(** X5.  A waveform point is never 0: a sample of 0 is replaced by 128, so for
    a buffer of bytes every point lies in [[1, 255]]; for an empty buffer
    every point is 128. *)
Theorem getWaveformPoints_range (waveformData : Uint8Array) (points : nat) :
  wf_Uint8Array waveformData →
  Forall (between one (of_Z 255)) (getWaveformPoints waveformData points) ∧
  getWaveformPoints [] points = replicate points (of_Z 128).
Proof.
  intros Hwf. split; [|done].
  destruct (decide (waveformData = [])) as [->|Hw].
  - apply Forall_replicate. by apply between_byte.
  - rewrite getWaveformPoints_unfold by done.
    apply Forall_fmap, Forall_true. intros i. by apply get_or_range.
Qed.

Lemma getWaveformPoints_range_witness :
  Forall (between one (of_Z 255)) (getWaveformPoints [0; 5; 128; 255]%Z 2).
Proof.
  apply (getWaveformPoints_range [0; 5; 128; 255]%Z 2).
  repeat constructor; lia.
Defined.

Lemma foldl_add_sum (l : list Z) (acc : Z) :
  foldl (fun acc val => add acc (of_Z val)) (of_Z acc) l = of_Z (acc + sumZ l).
Proof.
  revert acc. induction l as [|v l IH]; intros acc; cbn [foldl].
  - simpl. by rewrite Z.add_0_r.
  - by rewrite add_of_Z, IH, sumZ_cons, Z.add_assoc.
Qed.

Lemma slice_all (s : list Z) : slice s 0 (length s) = s.
Proof. unfold slice. by rewrite Nat.sub_0_r, drop_0, firstn_all. Qed.

Lemma mean_nonempty (l : list Z) :
  l ≠ [] →
  mean l = Fin (Qc_of_Z (sumZ l) / Qc_of_Z (Z.of_nat (length l))).
Proof.
  intros Hl. unfold mean, of_nat.
  change (of_Z (sumZ l)) with (Fin (Qc_of_Z (sumZ l))).
  apply div_Fin_pos. destruct l; [done|simpl; lia].
Qed.

(** The mean of a non-empty sequence of bytes lies in [[0, 255]]. *)
Lemma mean_range (l : list Z) :
  l ≠ [] → Forall (fun v => (0 <= v <= 255)%Z) l →
  between zero (of_Z 255) (mean l).
Proof.
  intros Hl Hwf. rewrite mean_nonempty by done.
  apply (average_bounds _ (Z.of_nat (length l))).
  - destruct l; [done|simpl; lia].
  - by apply sumZ_bounds.
Qed.

Lemma getAverageFrequency_mean (f : Uint8Array) :
  f ≠ [] → getAverageFrequency f = mean f.
Proof.
  intros Hf. unfold getAverageFrequency, mean.
  destruct (Nat.eqb_spec (length f) 0) as [H0|_].
  { by apply nil_length_inv in H0. }
  unfold zero. by rewrite foldl_add_sum, Z.add_0_l.
Qed.

(** X6.  [getAverageFrequency] is the mean of all bins, it is what
    [getBarData] computes for a single bar, and for a snapshot of bytes it
    lies in [[0, 255]]. *)
Theorem getAverageFrequency_single_bar :
  (∀ f : Uint8Array,
     f ≠ [] →
     getAverageFrequency f = mean f ∧ getBarData f 1 = [getAverageFrequency f]) ∧
  (∀ f : Uint8Array,
     wf_Uint8Array f → between zero (of_Z 255) (getAverageFrequency f)).
Proof.
  split.
  - intros f Hf. split; [by apply getAverageFrequency_mean|].
    rewrite getBarData_unfold, getAverageFrequency_mean by done.
    rewrite Nat.div_1_r. cbn [seq map]. f_equal.
    unfold raw_bar, mean, zero.
    rewrite sum_while_spec, Z.add_0_l, Nat.mul_0_l, Nat.add_0_l, Nat.min_id.
    by rewrite slice_all.
  - intros f Hwf. destruct (decide (f = [])) as [->|Hf].
    { by apply (between_byte 0 0). }
    rewrite getAverageFrequency_mean by done. by apply mean_range.
Qed.

Lemma getAverageFrequency_single_bar_witness :
  getAverageFrequency scenario_snapshot = mean scenario_snapshot ∧
  getBarData scenario_snapshot 1 = [getAverageFrequency scenario_snapshot].
Proof.
  by apply (proj1 getAverageFrequency_single_bar scenario_snapshot).
Defined.

Lemma bassRange_below_10 (n : nat) :
  (0 < n < 10)%nat → floor_scaled n 0.1 = 0%nat.
Proof.
  intros Hn.
  assert (n = 1 ∨ n = 2 ∨ n = 3 ∨ n = 4 ∨ n = 5 ∨ n = 6 ∨ n = 7
          ∨ n = 8 ∨ n = 9)%nat as Hcases by lia.
  repeat destruct Hcases as [->|Hcases]; try subst n; by vm_compute.
Qed.

(** X7.  With fewer than ten bins the bass band is empty, and [getBassLevel]
    divides 0 by 0: the level is NaN, not 0. *)
Theorem getBassLevel_short_is_NaN (frequencyData : Uint8Array) :
  (0 < length frequencyData < 10)%nat → getBassLevel frequencyData = NaN.
Proof.
  intros Hlen. unfold getBassLevel.
  destruct (Nat.eqb_spec (length frequencyData) 0) as [H0|_]; [lia|].
  cbv zeta. by rewrite bassRange_below_10.
Qed.

Lemma getBassLevel_short_is_NaN_witness : getBassLevel [200%Z; 100%Z] = NaN.
Proof.
  apply getBassLevel_short_is_NaN. simpl; lia.
Defined.

(** [getTrebleLevel] wherever the treble band starts. *)
Lemma getTrebleLevel_cases (f : Uint8Array) :
  f ≠ [] →
  let trebleStart := floor_scaled (length f) 0.7 in
  getTrebleLevel f
  = if decide (trebleStart < length f)%nat
    then mean (slice f trebleStart (length f))
    else zero.
Proof.
  intros Hf trebleStart. case_decide as Hlt.
  - rewrite getTrebleLevel_unfold by done. fold trebleStart.
    unfold mean. by rewrite length_slice.
  - unfold getTrebleLevel.
    destruct (Nat.eqb_spec (length f) 0) as [H0|_].
    { by apply nil_length_inv in H0. }
    cbv zeta. fold trebleStart.
    by replace (length f - trebleStart)%nat with 0%nat by lia.
Qed.

(** X8.  [getTrebleLevel] guards its division: for every snapshot of bytes,
    of any length, the level is a number in [[0, 255]], never NaN. *)
Theorem getTrebleLevel_range (frequencyData : Uint8Array) :
  wf_Uint8Array frequencyData →
  between zero (of_Z 255) (getTrebleLevel frequencyData).
Proof.
  intros Hwf. destruct (decide (frequencyData = [])) as [->|Hf].
  { by apply (between_byte 0 0). }
  rewrite getTrebleLevel_cases by done. cbv zeta.
  case_decide as Hlt; [|by apply (between_byte 0 0)].
  apply mean_range; [|by apply slice_wf].
  intros Hnil%(f_equal length). rewrite length_slice in Hnil by done.
  simpl in Hnil. lia.
Qed.

Lemma getTrebleLevel_range_witness :
  between zero (of_Z 255) (getTrebleLevel [200%Z; 100%Z]).
Proof.
  apply getTrebleLevel_range. repeat constructor; lia.
Defined.

End more_levels.

(* ===================================================================== *)
(** ** Volume                                                             *)
(* ===================================================================== *)

Section volume.

Import useAudioPlayer.

Local Open Scope Qc_scope.

Lemma zero_le_one : le zero one.
Proof. simpl. by rewrite <- Z2Qc_inj_le. Qed.

(** [Math.max(0, Math.min(1, x))] lies in [[0, 1]] unless [x] is NaN. *)
Lemma clamp_range (x : number) :
  x ≠ NaN → between zero one (Math_max zero (Math_min one x)).
Proof.
  pose proof zero_le_one as H01.
  intros Hx. destruct x as [q| | |]; [|done| |].
  - unfold Math_min, one, of_Z. case_decide as H1.
    + unfold Math_max, zero, of_Z. case_decide; [by split|done].
    + unfold Math_max, zero, of_Z. case_decide as H0.
      * split; [done|]. simpl in *. by apply Qclt_le_weak, Qclt_nge.
      * split; [simpl; reflexivity|done].
  - unfold Math_min, one, of_Z. case_decide as H1; [|by destruct H1].
    unfold Math_max, zero, of_Z. case_decide; [by split|done].
  - unfold Math_min, one, of_Z. case_decide as H1; [done|].
    unfold Math_max, zero, of_Z. case_decide as H0; [done|].
    split; [simpl; reflexivity|done].
Qed.

(** ... and is [x] itself when [x] already lies there. *)
Lemma clamp_id (x : number) :
  between zero one x → Math_max zero (Math_min one x) = x.
Proof.
  intros [H0 H1]. destruct x as [q| | |]; [|done..].
  unfold Math_min, one, of_Z. case_decide as H1'.
  - assert (q = Qc_of_Z 1) as -> by (by apply Qcle_antisym).
    unfold Math_max, zero, of_Z. by case_decide.
  - unfold Math_max, zero, of_Z. by case_decide.
Qed.

(** X9.  [changeVolume] stores a volume in [[0, 1]] for every argument that is
    not NaN, hands the same value to the audio element when there is one,
    and changes nothing of a volume that is already in range. *)
Theorem changeVolume_clamps (newVolume : number) (st : VolumeState) :
  newVolume ≠ NaN →
  (changeVolume newVolume st).2 = true ∧
  between zero one (volume (changeVolume newVolume st).1) ∧
  element_volume (changeVolume newVolume st).1
  = (fun _ => volume (changeVolume newVolume st).1) <$> element_volume st ∧
  (between zero one newVolume →
   volume (changeVolume newVolume st).1 = newVolume).
Proof.
  intros Hx. pose proof (clamp_range newVolume Hx) as Hr.
  assert (Math_max zero (Math_min one newVolume) ≠ NaN) as Hn.
  { intros Heq. rewrite Heq in Hr. by destruct Hr. }
  pose proof (clamp_id newVolume) as Hid.
  unfold changeVolume. cbv zeta.
  set (c := Math_max zero (Math_min one newVolume)) in *.
  destruct (element_volume st) as [old|] eqn:He.
  - rewrite decide_False by done. by cbn.
  - by cbn.
Qed.

Lemma changeVolume_clamps_witness :
  between zero one
    (volume (changeVolume (of_Z 5) (mkVolumeState zero (Some zero))).1).
Proof.
  apply (changeVolume_clamps (of_Z 5) (mkVolumeState zero (Some zero))).
  done.
Defined.

End volume.

(* ===================================================================== *)
(** ** Playlist navigation                                                *)
(* ===================================================================== *)

Section playlist.

Import Mp3Player.

(** [playNext] leaves the state consistent whenever the playlist is not
    empty, whatever the index was before. *)
Lemma playNext_consistent (st : PlayerState) :
  playlist st ≠ [] → playlist_consistent (playNext st).
Proof.
  intros Hne. unfold playNext, playlist_consistent.
  destruct (Nat.eqb_spec (length (playlist st)) 0) as [H0|Hlen].
  { by apply nil_length_inv in H0. }
  simpl. split; [|done]. by apply Nat.mod_upper_bound.
Qed.

Lemma playNext_playlist (st : PlayerState) : playlist (playNext st) = playlist st.
Proof. unfold playNext. by destruct (length (playlist st) =? 0). Qed.

Lemma iterate_playNext_playlist (k : nat) (st : PlayerState) :
  playlist (iterate k playNext st) = playlist st.
Proof.
  revert st. induction k as [|k IH]; intros st; [done|].
  cbn [iterate]. by rewrite IH, playNext_playlist.
Qed.

Lemma iterate_playNext_index (k : nat) (st : PlayerState) :
  playlist st ≠ [] →
  currentTrackIndex st < length (playlist st) →
  currentTrackIndex (iterate k playNext st)
  = (currentTrackIndex st + k) mod length (playlist st).
Proof.
  intros Hne. revert st Hne. induction k as [|k IH]; intros st Hne Hi.
  - cbn [iterate]. by rewrite Nat.add_0_r, Nat.mod_small.
  - cbn [iterate].
    destruct (playNext_consistent st Hne) as [Hi' _].
    rewrite IH by first [done | by rewrite playNext_playlist].
    rewrite playNext_playlist.
    unfold playNext.
    destruct (Nat.eqb_spec (length (playlist st)) 0) as [H0|Hlen].
    { by apply nil_length_inv in H0. }
    cbn [currentTrackIndex].
    rewrite Nat.Div0.add_mod_idemp_l. f_equal. lia.
Qed.

Lemma iterate_playNext_consistent (k : nat) (st : PlayerState) :
  playlist_consistent st → playlist_consistent (iterate k playNext st).
Proof.
  revert st. induction k as [|k IH]; intros st Hst; [done|].
  cbn [iterate]. apply IH, playNext_consistent.
  intros Hnil. destruct Hst as [Hlt _]. rewrite Hnil in Hlt. simpl in Hlt. lia.
Qed.

(** X10.  [playPrevious] undoes [playNext] and [playNext] undoes
    [playPrevious]: from a consistent state, the index and the current
    track come back; both handlers stop playback. *)
Theorem playNext_playPrevious_inverse (st : PlayerState) :
  playlist_consistent st →
  playPrevious (playNext st)
  = {| playlist := playlist st;
       currentTrackIndex := currentTrackIndex st;
       currentTrack := currentTrack st;
       isPlaying := false |} ∧
  playNext (playPrevious st) = playPrevious (playNext st).
Proof.
  intros [Hi Hcur].
  assert (length (playlist st) ≠ 0) as Hlen by lia.
  assert (∀ i,
    i < length (playlist st) →
    (if (i + 1) mod length (playlist st) =? 0
     then length (playlist st) - 1
     else (i + 1) mod length (playlist st) - 1) = i) as Hback.
  { intros i Hlt. destruct (decide (i + 1 = length (playlist st))) as [Heq|Hneq].
    - rewrite Heq, Nat.Div0.mod_same. simpl. lia.
    - rewrite Nat.mod_small by lia.
      destruct (Nat.eqb_spec (i + 1) 0); lia. }
  assert (∀ i,
    i < length (playlist st) →
    ((if i =? 0 then length (playlist st) - 1 else i - 1) + 1)
      mod length (playlist st) = i) as Hforth.
  { intros i Hlt. destruct (Nat.eqb_spec i 0) as [->|Hi0].
    - replace (length (playlist st) - 1 + 1) with (length (playlist st)) by lia.
      apply Nat.Div0.mod_same.
    - replace (i - 1 + 1) with i by lia. by apply Nat.mod_small. }
  assert (playPrevious (playNext st)
          = {| playlist := playlist st;
               currentTrackIndex := currentTrackIndex st;
               currentTrack := currentTrack st;
               isPlaying := false |}) as Hpn.
  { unfold playPrevious, playNext.
    destruct (Nat.eqb_spec (length (playlist st)) 0) as [H0|_]; [lia|].
    cbn [playlist currentTrackIndex].
    destruct (Nat.eqb_spec (length (playlist st)) 0) as [H0|_]; [lia|].
    rewrite Hback by done. by rewrite Hcur. }
  split; [done|]. rewrite Hpn.
  unfold playPrevious, playNext.
  destruct (Nat.eqb_spec (length (playlist st)) 0) as [H0|_]; [lia|].
  cbn [playlist currentTrackIndex].
  destruct (Nat.eqb_spec (length (playlist st)) 0) as [H0|_]; [lia|].
  rewrite Hforth by done. by rewrite Hcur.
Qed.

Lemma playNext_playPrevious_inverse_witness :
  currentTrackIndex
    (playPrevious
       (playNext (mkPlayerState [mkTrack 1 "a" "u" (mkFile "a.mp3" "audio/mpeg" 10); mkTrack 2 "b" "v" (mkFile "b.mp3" "audio/mpeg" 20)] 1
                    (Some (mkTrack 2 "b" "v" (mkFile "b.mp3" "audio/mpeg" 20))) true))) = 1.
Proof.
  destruct (playNext_playPrevious_inverse
              (mkPlayerState [mkTrack 1 "a" "u" (mkFile "a.mp3" "audio/mpeg" 10); mkTrack 2 "b" "v" (mkFile "b.mp3" "audio/mpeg" 20)] 1
                 (Some (mkTrack 2 "b" "v" (mkFile "b.mp3" "audio/mpeg" 20))) true)) as [-> _]; [|done].
  split; [simpl; lia|done].
Defined.

(** X11.  Repeated [playNext] walks the playlist in order and wraps around:
    from a consistent state it reaches every track within one round, and
    after as many steps as there are tracks it is back on the same one. *)
Theorem playNext_cycles (st : PlayerState) :
  playlist_consistent st →
  (∀ j, j < length (playlist st) →
     ∃ k, k < length (playlist st) ∧
          currentTrackIndex (iterate k playNext st) = j ∧
          currentTrack (iterate k playNext st) = playlist st !! j) ∧
  currentTrackIndex (iterate (length (playlist st)) playNext st)
  = currentTrackIndex st.
Proof.
  intros [Hi Hcur].
  assert (playlist st ≠ []) as Hne by (intros Hnil; rewrite Hnil in Hi; simpl in Hi; lia).
  set (n := length (playlist st)) in *. set (i := currentTrackIndex st) in *.
  split.
  - intros j Hj. exists ((j + n - i) mod n).
    assert (currentTrackIndex (iterate ((j + n - i) mod n) playNext st) = j) as Hidx.
    { rewrite iterate_playNext_index by done. fold i n.
      rewrite Nat.Div0.add_mod_idemp_r.
      replace (i + (j + n - i)) with (j + 1 * n) by lia.
      rewrite Nat.Div0.mod_add. by apply Nat.mod_small. }
    split; [apply Nat.mod_upper_bound; lia|]. split; [done|].
    destruct (iterate_playNext_consistent ((j + n - i) mod n) st) as [_ Hc];
      [by split|].
    by rewrite Hc, Hidx, iterate_playNext_playlist.
  - rewrite iterate_playNext_index by done. fold i n.
    replace (i + n) with (i + 1 * n) by lia.
    rewrite Nat.Div0.mod_add. by apply Nat.mod_small.
Qed.

Lemma playNext_cycles_witness :
  currentTrackIndex
    (iterate 2 playNext
       (mkPlayerState [mkTrack 1 "a" "u" (mkFile "a.mp3" "audio/mpeg" 10); mkTrack 2 "b" "v" (mkFile "b.mp3" "audio/mpeg" 20)] 1
          (Some (mkTrack 2 "b" "v" (mkFile "b.mp3" "audio/mpeg" 20))) true)) = 1.
Proof.
  apply (proj2 (playNext_cycles
                  (mkPlayerState [mkTrack 1 "a" "u" (mkFile "a.mp3" "audio/mpeg" 10); mkTrack 2 "b" "v" (mkFile "b.mp3" "audio/mpeg" 20)] 1
                     (Some (mkTrack 2 "b" "v" (mkFile "b.mp3" "audio/mpeg" 20))) true)
                  (conj (le_n 2) eq_refl))).
Defined.

End playlist.

(* ===================================================================== *)
(** ** Saving, loading and clearing the local cache                       *)
(* ===================================================================== *)

Section storage.

Context {Data : Type} (host : Host Data).

(** What [clearAudioCache] leaves under each key. *)
Lemma clearAudioCache_lookup (localStorage : gmap string string) (key : string) :
  (clearAudioCache localStorage).1 !! key
  = if startsWith key "audio_" || startsWith key "player_"
    then None else localStorage !! key.
Proof.
  unfold clearAudioCache. cbn [fst]. rewrite forEach_remove_lookup.
  destruct (startsWith key "audio_" || startsWith key "player_"); [|done].
  rewrite andb_true_l. case_bool_decide as H; [done|].
  rewrite elem_of_Object_keys in H. by apply eq_None_not_Some.
Qed.

(** X12.  A value saved is the value loaded: when [saveToLocalStorage] returns
    [true] and the text written parses back to the value, then
    [loadFromLocalStorage] under the same key returns the value, and
    under every other key what it returned before. *)
Theorem save_then_load
    (key : string) (data defaultValue : Data) (text : string)
    (localStorage : gmap string string) :
  JSON_stringify host data = Some text →
  text ≠ "" →
  JSON_parse host text = Some data →
  (saveToLocalStorage host key data localStorage).2 = true →
  loadFromLocalStorage host key defaultValue
    (saveToLocalStorage host key data localStorage).1 = data ∧
  ∀ other, other ≠ key →
    loadFromLocalStorage host other defaultValue
      (saveToLocalStorage host key data localStorage).1
    = loadFromLocalStorage host other defaultValue localStorage.
Proof.
  intros Hs Hne Hp. unfold saveToLocalStorage. rewrite Hs.
  destruct (setItem_accepts host localStorage key text); [|done].
  intros _. cbn [fst]. unfold loadFromLocalStorage. split.
  - rewrite lookup_insert_eq.
    destruct (String.eqb_spec text "") as [->|_]; [done|]. by rewrite Hp.
  - intros other Hother. by rewrite lookup_insert_ne.
Qed.

(** A save that returns [false] has not touched the store. *)
Lemma save_failed_unchanged (key : string) (data : Data)
    (localStorage : gmap string string) :
  (saveToLocalStorage host key data localStorage).2 = false →
  (saveToLocalStorage host key data localStorage).1 = localStorage.
Proof.
  unfold saveToLocalStorage.
  destruct (JSON_stringify host data) as [text|]; [|done].
  by destruct (setItem_accepts host localStorage key text).
Qed.

(** X13.  After [clearAudioCache], loading a key that starts with [audio_] or
    [player_] gives the default value, whatever had been saved under it,
    and loading any other key gives what it gave before. *)
Theorem clear_then_load
    (key : string) (defaultValue : Data) (localStorage : gmap string string) :
  (cache_key key →
   loadFromLocalStorage host key defaultValue (clearAudioCache localStorage).1
   = defaultValue) ∧
  (¬ cache_key key →
   loadFromLocalStorage host key defaultValue (clearAudioCache localStorage).1
   = loadFromLocalStorage host key defaultValue localStorage).
Proof.
  unfold loadFromLocalStorage. rewrite clearAudioCache_lookup. split.
  - intros Hk%cache_key_spec. by rewrite Hk.
  - intros Hk. rewrite <- cache_key_spec in Hk.
    apply not_true_is_false in Hk. by rewrite Hk.
Qed.

End storage.

Section storage_examples.

Lemma save_then_load_witness :
  loadFromLocalStorage bool_host "player_muted" false
    (saveToLocalStorage bool_host "player_muted" true (∅ : gmap string string)).1
  = true.
Proof.
  by apply (save_then_load bool_host "player_muted" true false "true" ∅).
Defined.

Lemma clear_then_load_witness :
  loadFromLocalStorage bool_host "player_muted" false
    (clearAudioCache
       (saveToLocalStorage bool_host "player_muted" true
          (∅ : gmap string string)).1).1
  = false.
Proof.
  apply (clear_then_load bool_host "player_muted" false).
  right. by exists "muted".
Defined.

End storage_examples.

Section cache_algebra.

(** X14.  [clearAudioCache] keeps exactly the entries whose key is not a cache
    key, so clearing twice is clearing once, and clearing a store without
    cache keys changes nothing. *)
Theorem clearAudioCache_idempotent (localStorage : gmap string string) :
  (clearAudioCache (clearAudioCache localStorage).1).1
  = (clearAudioCache localStorage).1 ∧
  (clearAudioCache localStorage).1 ⊆ localStorage ∧
  ((∀ key, is_Some (localStorage !! key) → ¬ cache_key key) →
   (clearAudioCache localStorage).1 = localStorage).
Proof.
  split; [|split].
  - apply map_eq. intros key. rewrite !clearAudioCache_lookup.
    by destruct (startsWith key "audio_" || startsWith key "player_").
  - apply map_subseteq_spec. intros key v.
    rewrite clearAudioCache_lookup.
    by destruct (startsWith key "audio_" || startsWith key "player_").
  - intros Hnone. apply map_eq. intros key. rewrite clearAudioCache_lookup.
    destruct (startsWith key "audio_" || startsWith key "player_") eqn:Hk;
      [|done].
    apply cache_key_spec in Hk. symmetry. apply eq_None_not_Some.
    intros Hsome. by apply (Hnone key).
Qed.

End cache_algebra.

(* ===================================================================== *)
(** ** Time display                                                       *)
(* ===================================================================== *)

Section time_display.

Local Open Scope Z_scope.

Lemma append_nil_l (x : string) : String.append EmptyString x = x.
Proof. reflexivity. Qed.

Lemma append_cons (c : ascii) (a x : string) :
  String.append (String c a) x = String c (String.append a x).
Proof. reflexivity. Qed.

Lemma string_length_append (a b : string) :
  String.length (String.append a b) = (String.length a + String.length b)%nat.
Proof.
  induction a as [|c a IH]; [done|].
  rewrite append_cons. cbn [String.length]. by rewrite IH.
Qed.

Lemma append_inj_same_length (a b x y : string) :
  String.length x = String.length y →
  String.append a x = String.append b y → a = b ∧ x = y.
Proof.
  intros Hlen. revert b. induction a as [|c a IH]; intros [|d b] Heq;
    rewrite ?append_nil_l, ?append_cons in Heq.
  - done.
  - exfalso. apply (f_equal String.length) in Heq. cbn [String.length] in Heq.
    rewrite string_length_append in Heq. lia.
  - exfalso. apply (f_equal String.length) in Heq. cbn [String.length] in Heq.
    rewrite string_length_append in Heq. lia.
  - injection Heq as -> Heq. by destruct (IH b Heq) as [-> ->].
Qed.

(** [padStart(2, '0')] of a number below 60 is its two digits. *)
Lemma padStart_two_digits (r : Z) :
  0 ≤ r < 60 → padStart (Number_toString r) 2 "0" = two_digits r.
Proof.
  intros Hr. assert (∃ n : nat, r = Z.of_nat n ∧ (n < 60)%nat) as (n & -> & Hn).
  { exists (Z.to_nat r). lia. }
  clear Hr. do 60 (destruct n as [|n]; [by vm_compute|]). lia.
Qed.

Lemma two_digits_inj (a b : Z) :
  0 ≤ a < 100 → 0 ≤ b < 100 → two_digits a = two_digits b → a = b.
Proof.
  intros Ha Hb Heq. unfold two_digits in Heq. injection Heq as E1 E2.
  assert (∀ n m : nat, (n < 256)%nat → (m < 256)%nat →
            ascii_of_nat n = ascii_of_nat m → n = m) as Hinj.
  { intros n m Hn Hm E. apply (f_equal nat_of_ascii) in E.
    by rewrite !nat_ascii_embedding in E. }
  pose proof (Z.div_mod a 10 ltac:(lia)).
  pose proof (Z.div_mod b 10 ltac:(lia)).
  pose proof (Z.mod_pos_bound a 10 ltac:(lia)).
  pose proof (Z.mod_pos_bound b 10 ltac:(lia)).
  assert (0 ≤ a `div` 10 < 10) by (split; [apply Z.div_pos|apply Z.div_lt_upper_bound]; lia).
  assert (0 ≤ b `div` 10 < 10) by (split; [apply Z.div_pos|apply Z.div_lt_upper_bound]; lia).
  apply Hinj in E1; [|lia..]. apply Hinj in E2; [|lia..]. lia.
Qed.

Lemma formatTime_nonneg (s : Z) :
  0 ≤ s →
  formatTime (Some s)
  = String.append (Number_toString (s `div` 60))
      (String.append ":" (two_digits (s `mod` 60))).
Proof.
  intros Hs. unfold formatTime. destruct (Z.eqb_spec s 0) as [->|Hne].
  - by vm_compute.
  - cbv zeta. rewrite Z.rem_mod_nonneg by lia.
    rewrite padStart_two_digits; [done|]. apply Z.mod_pos_bound. lia.
Qed.

(** X15.  For a whole, non-negative number of seconds below 2^53 (the
    whole numbers the engine holds exactly) the display is the
    minutes, a colon, and exactly two decimal digits that read the seconds
    past the minute. *)
Theorem formatTime_minutes_and_two_digits (s : Z) :
  0 ≤ s < 2 ^ 53 →
  ∃ d1 d2 : ascii,
    formatTime (Some s)
    = String.append (Number_toString (s `div` 60))
        (String ":" (String d1 (String d2 EmptyString))) ∧
    is_digit d1 ∧ is_digit d2 ∧
    10 * digit_value d1 + digit_value d2 = s `mod` 60.
Proof.
  intros [Hs _]. rewrite formatTime_nonneg by done.
  pose proof (Z.mod_pos_bound s 60 ltac:(lia)) as Hr.
  set (r := s `mod` 60) in *.
  pose proof (Z.div_mod r 10 ltac:(lia)).
  pose proof (Z.mod_pos_bound r 10 ltac:(lia)).
  assert (0 ≤ r `div` 10 < 6)
    by (split; [apply Z.div_pos|apply Z.div_lt_upper_bound]; lia).
  exists (ascii_of_nat (48 + Z.to_nat (r `div` 10))),
         (ascii_of_nat (48 + Z.to_nat (r `mod` 10))).
  unfold is_digit, digit_value. rewrite !nat_ascii_embedding by lia.
  split; [done|]. lia.
Qed.

Lemma formatTime_minutes_and_two_digits_witness :
  ∃ d1 d2 : ascii,
    formatTime (Some 125)
    = String.append (Number_toString (125 `div` 60))
        (String ":" (String d1 (String d2 EmptyString))) ∧
    is_digit d1 ∧ is_digit d2 ∧
    10 * digit_value d1 + digit_value d2 = 125 `mod` 60.
Proof.
  apply (formatTime_minutes_and_two_digits 125). lia.
Defined.

(** X16.  Two different whole, non-negative times below 2^53 are never
    displayed alike. *)
Theorem formatTime_injective (a b : Z) :
  0 ≤ a < 2 ^ 53 → 0 ≤ b < 2 ^ 53 →
  formatTime (Some a) = formatTime (Some b) → a = b.
Proof.
  intros [Ha _] [Hb _]. rewrite !formatTime_nonneg by done. intros Heq.
  apply append_inj_same_length in Heq as [Hm Hs]; [|done].
  rewrite !append_cons, !append_nil_l in Hs.
  assert (two_digits (a `mod` 60) = two_digits (b `mod` 60)) as Hs'
    by congruence.
  clear Hs. rename Hs' into Hs.
  apply (inj pretty) in Hm.
  pose proof (Z.mod_pos_bound a 60 ltac:(lia)).
  pose proof (Z.mod_pos_bound b 60 ltac:(lia)).
  apply two_digits_inj in Hs; [|lia..].
  rewrite (Z.div_mod a 60), (Z.div_mod b 60) by lia. by rewrite Hm, Hs.
Qed.

Lemma formatTime_injective_witness : (125 : Z) = 125.
Proof.
  apply (formatTime_injective 125 125); [lia|lia|reflexivity].
Defined.

End time_display.

(* ===================================================================== *)
(** ** Titles from file names                                             *)
(* ===================================================================== *)

Section titles.

Lemma plain_extension_forallb (ext : string) :
  plain_extension ext →
  negb (String.eqb ext "") = true ∧
  forallb extension_char (String.list_ascii_of_string ext) = true.
Proof.
  intros [Hne Hall]. split.
  - by destruct (String.eqb_spec ext "").
  - apply forallb_forall. intros c Hc%list_elem_of_In.
    destruct (Hall c Hc) as [Hdot Hslash]. unfold extension_char.
    destruct (Ascii.eqb_spec c "/"); [done|].
    by destruct (Ascii.eqb_spec c ".").
Qed.

(** No match can start before the last dot: what follows contains a dot. *)
Lemma dot_inside_not_extension (b ext : string) :
  forallb extension_char
    (String.list_ascii_of_string (String.append b (String "." ext))) = false.
Proof.
  induction b as [|c b IH]; [done|].
  rewrite append_cons. cbn [String.list_ascii_of_string forallb].
  by rewrite IH, andb_false_r.
Qed.

Lemma remove_extension_eq (s : string) :
  remove_extension s
  = if extension_here s then EmptyString
    else match s with
         | EmptyString => EmptyString
         | String c rest => String c (remove_extension rest)
         end.
Proof. by destruct s. Qed.

Lemma remove_extension_base (base ext : string) :
  plain_extension ext →
  remove_extension (String.append base (String "." ext)) = base.
Proof.
  intros [Hne Hall]%plain_extension_forallb.
  induction base as [|c base IH].
  - rewrite append_nil_l, remove_extension_eq. unfold extension_here.
    by rewrite Hne, Hall.
  - rewrite append_cons, remove_extension_eq. unfold extension_here.
    rewrite dot_inside_not_extension, andb_false_r. by rewrite IH.
Qed.

Lemma remove_extension_prefix (s : string) :
  ∃ rest, s = String.append (remove_extension s) rest.
Proof.
  induction s as [|c s [rest IH]].
  - by exists EmptyString.
  - rewrite remove_extension_eq. destruct (extension_here (String c s)).
    + by exists (String c s).
    + exists rest. rewrite append_cons. by rewrite <- IH.
Qed.

Lemma remove_extension_no_dot (s : string) :
  "."%char ∉ String.list_ascii_of_string s → remove_extension s = s.
Proof.
  induction s as [|c s IH]; intros Hdot; [done|].
  cbn [String.list_ascii_of_string] in Hdot.
  apply not_elem_of_cons in Hdot as [Hc Hs].
  rewrite remove_extension_eq. unfold extension_here.
  destruct (Ascii.eqb_spec c ".") as [->|_]; [done|].
  cbn [andb]. by rewrite IH.
Qed.

(** X17.  The title of a file named [base.ext] is [base], whatever [base]
    contains, on both outcomes of loading; the file name, size and type
    are passed on as they are. *)
Theorem extractMetadata_title_drops_extension
    (file : File) (url : string) (ev : AudioEvent) (base ext : string) :
  name file = String.append base (String "." ext) →
  plain_extension ext →
  md_title (extractMetadata file url ev) = base ∧
  md_filename (extractMetadata file url ev) = name file ∧
  md_size (extractMetadata file url ev) = size file ∧
  md_type (extractMetadata file url ev) = type file.
Proof.
  intros Hname Hext.
  destruct ev; cbn [extractMetadata md_title md_filename md_size md_type];
    by rewrite Hname, remove_extension_base.
Qed.

Lemma extractMetadata_title_drops_extension_witness :
  md_title (extractMetadata (mkFile "my.song.mp3" "audio/mpeg" 1000) "blob:1"
              error_event) = "my.song".
Proof.
  apply (extractMetadata_title_drops_extension
           (mkFile "my.song.mp3" "audio/mpeg" 1000) "blob:1" error_event
           "my.song" "mp3"); [done|].
  split; [done|]. intros c Hc. cbn in Hc.
  repeat (apply elem_of_cons in Hc as [->|Hc]; [done|]).
  by apply elem_of_nil in Hc.
Defined.

(** X18.  The title is always a beginning of the file name, and it is the whole
    file name when the name has no dot. *)
Theorem extractMetadata_title_prefix
    (file : File) (url : string) (ev : AudioEvent) :
  (∃ rest,
     name file = String.append (md_title (extractMetadata file url ev)) rest) ∧
  ("."%char ∉ String.list_ascii_of_string (name file) →
   md_title (extractMetadata file url ev) = name file).
Proof.
  destruct ev; cbn [extractMetadata md_title];
    (split; [apply remove_extension_prefix | apply remove_extension_no_dot]).
Qed.

End titles.


(* ===================================================================== *)
(** ** Uploading into the playlist                                        *)
(* ===================================================================== *)

Section upload.

Import Mp3Player.

(** The tracks [handleFileUpload] makes of the audio files. *)
Lemma handleFileUpload_playlist (now : nat → Z) (createObjectURL : nat → string)
    (files : list File) (st : PlayerState) :
  playlist (handleFileUpload now createObjectURL files st)
  = playlist st
    ++ imap (fun index file =>
               {| track_id := now index + Z.of_nat index;
                  track_name := remove_extension (name file);
                  track_url := createObjectURL index;
                  track_file := file |})
         (filter (fun file => startsWith (type file) "audio/" = true) files).
Proof.
  unfold handleFileUpload. cbv zeta.
  destruct (filter _ files) as [|f fs] eqn:Hf.
  - cbn. by rewrite app_nil_r.
  - cbn [length Nat.ltb Nat.leb].
    by destruct (negb _ && _).
Qed.

(** X19.  An upload keeps the playlist it finds, in order, and appends one track
    for each file whose type starts with [audio/], in the order of the
    files; each new track is named after its file without the extension.
    Files of other types add nothing. *)
Theorem handleFileUpload_appends (now : nat → Z) (createObjectURL : nat → string)
    (files : list File) (st : PlayerState) :
  ∃ newTracks,
    playlist (handleFileUpload now createObjectURL files st)
    = playlist st ++ newTracks ∧
    map track_file newTracks
    = filter (fun file => startsWith (type file) "audio/" = true) files ∧
    Forall (fun t => track_name t = remove_extension (name (track_file t)))
           newTracks.
Proof.
  eexists. split; [apply handleFileUpload_playlist|]. split.
  - apply list_eq. intros i. rewrite list_lookup_fmap, list_lookup_imap.
    by destruct (filter _ files !! i).
  - apply Forall_lookup. intros i t. rewrite list_lookup_imap.
    destruct (filter _ files !! i); [|done]. by intros [= <-].
Qed.

(** X20.  Every state the player reaches is consistent: starting with nothing
    loaded, uploads, [playNext] and [playPrevious] keep the index inside
    the playlist and the current track equal to the track at the index. *)
Theorem player_invariant_preserved
    (now : nat → Z) (createObjectURL : nat → string) (files : list File)
    (st : PlayerState) :
  player_invariant st →
  player_invariant (handleFileUpload now createObjectURL files st) ∧
  player_invariant (playNext st) ∧
  player_invariant (playPrevious st).
Proof.
  intros Hinv. split; [|split].
  - unfold handleFileUpload. cbv zeta.
    destruct (filter _ files) as [|f fs] eqn:Hf; [done|].
    rewrite length_imap. cbn [length Nat.ltb Nat.leb].
    destruct Hinv as [[Hnil Hnone]|[Hi Hcur]].
    + rewrite Hnone, Hnil.
      rewrite bool_decide_eq_false_2 by (by intros [? ?]).
      cbn [negb andb]. right.
      split; cbn [playlist currentTrackIndex currentTrack length app];
        [rewrite length_imap; cbn [length]; lia|done].
    + assert (is_Some (currentTrack st)) as Hsome.
      { rewrite Hcur. by apply lookup_lt_is_Some_2. }
      rewrite bool_decide_eq_true_2 by done. cbn [negb andb].
      right. split; cbn [playlist currentTrackIndex currentTrack].
      * rewrite length_app. lia.
      * by rewrite lookup_app_l.
  - destruct Hinv as [[Hnil Hnone]|[Hi Hcur]].
    + left. unfold playNext. by rewrite Hnil.
    + right. apply playNext_consistent. intros Hnil. rewrite Hnil in Hi.
      simpl in Hi. lia.
  - destruct Hinv as [[Hnil Hnone]|[Hi Hcur]].
    + left. unfold playPrevious. by rewrite Hnil.
    + right. unfold playPrevious, playlist_consistent.
      destruct (Nat.eqb_spec (length (playlist st)) 0) as [H0|_]; [lia|].
      cbn [playlist currentTrackIndex currentTrack]. split; [|done].
      destruct (Nat.eqb_spec (currentTrackIndex st) 0); lia.
Qed.

Lemma player_invariant_preserved_witness :
  player_invariant
    (handleFileUpload (fun _ => 1000%Z) (fun _ => "blob:1")
       [mkFile "a.mp3" "audio/mpeg" 10; mkFile "notes.txt" "text/plain" 1]
       (mkPlayerState [] 0 None false)).
Proof.
  apply (player_invariant_preserved (fun _ => 1000%Z) (fun _ => "blob:1")
           [mkFile "a.mp3" "audio/mpeg" 10; mkFile "notes.txt" "text/plain" 1]
           (mkPlayerState [] 0 None false)).
  by left.
Defined.

End upload.

(* ===================================================================== *)
(** ** The two validators                                                 *)
(* ===================================================================== *)

Section validators.

Import FileUpload.

(** X21.  A file the upload component accepts under its default limit, with one
    of the three types both lists name, is accepted by
    [validateAudioFile] too: the component's limit of 50MB is below the
    100MB of the utility. *)
Theorem validateFile_accepts_common_core (file : File) :
  validateFile default_maxFileSize file = None →
  type file ∈ ["audio/mpeg"; "audio/wav"; "audio/mp3"] →
  validateAudioFile (Some file) = mkValidation true None.
Proof.
  unfold validateFile, validateAudioFile. intros Hv Ht.
  assert (includes validTypes (type file) = true) as ->.
  { apply includes_elem_of. unfold validTypes.
    repeat (apply elem_of_cons in Ht as [->|Ht]; [set_solver|]).
    by apply elem_of_nil in Ht. }
  destruct (negb _ && negb _); [done|].
  destruct (Z.gtb_spec (size file) default_maxFileSize) as [|Hle]; [done|].
  cbn [negb]. unfold default_maxFileSize in Hle.
  destruct (Z.gtb_spec (size file) maxSize) as [Hgt|_]; [|done].
  unfold maxSize in Hgt. lia.
Qed.

Lemma validateFile_accepts_common_core_witness :
  validateAudioFile (Some (mkFile "a.mp3" "audio/mpeg" 1000))
  = mkValidation true None.
Proof.
  apply validateFile_accepts_common_core; [done|set_solver].
Defined.

(** X22.  The two validators do not accept the same files.  A file typed
    [audio/ogg], [audio/aac] or [audio/flac] whose name does not end in
    [.mp3], [.wav] or [.m4a] passes [validateAudioFile] up to 100MB and is
    always refused by the component; a file typed [audio/x-m4a] or
    [audio/mp4] is always refused by [validateAudioFile] and passes the
    component up to its limit. *)
Theorem validators_disagree (maxFileSize : Z) (file : File) :
  (type file ∈ ["audio/ogg"; "audio/aac"; "audio/flac"] →
   matches_audio_extension (name file) = false →
   is_Some (validateFile maxFileSize file) ∧
   ((size file ≤ 100 * 1024 * 1024)%Z →
    validateAudioFile (Some file) = mkValidation true None)) ∧
  (type file ∈ ["audio/x-m4a"; "audio/mp4"] →
   valid (validateAudioFile (Some file)) = false ∧
   ((size file ≤ maxFileSize)%Z → validateFile maxFileSize file = None)).
Proof.
  split.
  - intros Ht Hname. unfold validateFile, validateAudioFile. rewrite Hname.
    assert (includes allowedTypes (type file) = false
            ∧ includes validTypes (type file) = true) as [-> ->].
    { repeat (apply elem_of_cons in Ht as [->|Ht]; [done|]).
      by apply elem_of_nil in Ht. }
    cbn [negb andb]. split; [done|]. intros Hsize.
    destruct (Z.gtb_spec (size file) maxSize) as [Hgt|_]; [|done].
    unfold maxSize in Hgt. lia.
  - intros Ht. unfold validateFile, validateAudioFile.
    assert (includes allowedTypes (type file) = true
            ∧ includes validTypes (type file) = false) as [-> ->].
    { repeat (apply elem_of_cons in Ht as [->|Ht]; [done|]).
      by apply elem_of_nil in Ht. }
    cbn [negb andb]. split; [done|]. intros Hsize.
    destruct (Z.gtb_spec (size file) maxFileSize) as [Hgt|_]; [lia|done].
Qed.

Lemma validators_disagree_witness :
  is_Some (validateFile default_maxFileSize (mkFile "a.ogg" "audio/ogg" 1000)) ∧
  validateAudioFile (Some (mkFile "a.ogg" "audio/ogg" 1000))
  = mkValidation true None.
Proof.
  destruct (proj1 (validators_disagree default_maxFileSize
                     (mkFile "a.ogg" "audio/ogg" 1000))) as [Hc Hu];
    [set_solver|done|].
  split; [exact Hc|]. apply Hu. cbn. lia.
Defined.

End validators.

(* ===================================================================== *)
(** ** The range of the normalized bars                                   *)
(* ===================================================================== *)

Section normalized_range.

(** X23.  For a snapshot of bytes, whatever the number of bars: when the
    snapshot is not empty and shorter than the number of bars every bar is
    NaN, and in every other case every bar lies in [[0, 1]].  No bar is
    ever infinite, negative or above 1. *)
Theorem normalizeFrequencyData_unit_interval_or_NaN
    (s : Uint8Array) (barCount : nat) :
  wf_Uint8Array s →
  if decide (0 < length s < barCount)%nat
  then normalizeFrequencyData (Some s) barCount = replicate barCount NaN
  else Forall (between zero one) (normalizeFrequencyData (Some s) barCount).
Proof.
  intros Hwf. case_decide as Hshort.
  - apply normalizeFrequencyData_short; [|lia].
    intros ->. simpl in Hshort. lia.
  - destruct (decide (s = [])) as [->|Hs].
    { apply Forall_replicate. by apply (between_byte 0 0). }
    assert (0 < length s)%nat by (destruct s; [done|simpl; lia]).
    rewrite normalizeFrequencyData_unfold by done.
    destruct (decide (barCount = 0)%nat) as [->|Hb]; [by constructor|].
    assert (0 < length s / barCount)%nat as Hc by (apply Nat.div_str_pos; lia).
    apply Forall_fmap, Forall_true. intros i. unfold compose.
    rewrite normalized_bar_pos by done.
    apply (normalized_bounds _ (Z.of_nat (length s / barCount))); [lia|].
    by apply chunk_sum_bounds.
Qed.

Lemma normalizeFrequencyData_unit_interval_or_NaN_witness :
  normalizeFrequencyData (Some [200; 100]%Z) 3 = replicate 3 NaN.
Proof.
  apply (normalizeFrequencyData_unit_interval_or_NaN [200; 100]%Z 3).
  repeat constructor; lia.
Defined.

End normalized_range.

(* ===================================================================== *)
(** ** Validation and playback                                            *)
(* ===================================================================== *)

Section validation_and_playback.

Import Mp3Player.

(** C8 as it is worded, with its last clause: [validateAudioFile] is not
    on the way to playback.  The player's upload handler takes a 200MB
    [audio/x-m4a] file, which [validateAudioFile] rejects, makes it the
    current track, and [togglePlayPause] then calls [play()] on it; so it
    is not true that every file whose playback is attempted has passed
    [validateAudioFile]. *)
Lemma validateAudioFile_not_before_playback :
  valid (validateAudioFile (Some oversized_m4a)) = false ∧
  (∃ t,
     (togglePlayPause working_element
        (handleFileUpload (fun _ => 0%Z) (fun _ => "blob:big")
           [oversized_m4a] initial_player)).2 = Some (call_play t) ∧
     track_file t = oversized_m4a) ∧
  ¬ (∀ (now : nat → Z) (createObjectURL : nat → string) (files : list File)
       (el : Element) (st : PlayerState) (t : Track),
       (togglePlayPause el
          (handleFileUpload now createObjectURL files st)).2
       = Some (call_play t) →
       valid (validateAudioFile (Some (track_file t))) = true).
Proof.
  assert (∃ t,
     (togglePlayPause working_element
        (handleFileUpload (fun _ => 0%Z) (fun _ => "blob:big")
           [oversized_m4a] initial_player)).2 = Some (call_play t) ∧
     track_file t = oversized_m4a) as Hplay.
  { eexists. split; [by vm_compute|done]. }
  split; [done|]. split; [exact Hplay|].
  intros Hall. destruct Hplay as (t & Hcall & Hfile).
  specialize (Hall _ _ _ _ _ _ Hcall). by rewrite Hfile in Hall.
Qed.

End validation_and_playback.
